(** * Parallel matrix reduction (reduce.cpp): static and dynamic row partitioning

    A shallow embedding of [src/reduce.cpp] and the proofs of its
    specification.  The program sums a [rows] x [cols] matrix of [int] with a
    configurable number of worker threads, either with a strided, pre-assigned
    distribution of the rows ([sum_static]) or with a shared counter protected
    by a mutex from which the workers pull rows ([sum_dynamic]).

    The threads are modelled as an interleaving semantics: a global [state]
    holds the shared variables of the translation unit and one control point
    per thread, and [step] lets one thread (or [main]) take one step.  A
    schedule is the list of threads in the order in which they step; the
    theorems quantify over all schedules. *)

From Stdlib Require Import ZArith Lia.
From stdpp Require Import prelude strings.

Local Open Scope Z_scope.

(** ** Machine integers *)

Definition INT_MIN : Z := -2147483648.
Definition INT_MAX : Z := 2147483647.
Definition UINT32_MAX : Z := 4294967295.

(** [int] arithmetic: a result outside the range is undefined behaviour. *)
Definition in_int (z : Z) : Prop := INT_MIN ≤ z ≤ INT_MAX.

(** Conversion to [uint32_t] and to [uint64_t]: reduction modulo 2^32, 2^64. *)
Definition to_uint32 (z : Z) : Z := z mod 2 ^ 32.
Definition to_uint64 (z : Z) : Z := z mod 2 ^ 64.

(** Conversion of an unsigned 32-bit value to [int] (two's complement). *)
Definition to_int (z : Z) : Z := (z + 2 ^ 31) mod 2 ^ 32 - 2 ^ 31.

(** ** The globals of the translation unit *)

(** [constexpr int rows = 1000; constexpr int cols = 100;] *)
Definition rows : Z := 1000.
Definition cols : Z := 100.

(** [int work[rows][cols]]: the contents of the array, as a function of the
    two indices.  Only the entries with indices inside the array exist:
    [work_at] is the checked access, [None] for an index outside the bounds. *)
Definition matrix : Type := Z → Z → Z.

Definition work_at (work : matrix) (row i : Z) : option Z :=
  if decide (0 ≤ row < rows ∧ 0 ≤ i < cols) then Some (work row i) else None.

(** [acc += work[row][i]] with [acc] an [uint64_t] (an element of the vector
    [sum]): the [int] entry is converted to [uint64_t] and the addition wraps
    modulo 2^64.  [None]: an access outside the array went before. *)
Definition add_col (work : matrix) (row : Z) (a : option Z) (i : Z) : option Z :=
  match a, work_at work row i with
  | Some s, Some v => Some (to_uint64 (s + v))
  | _, _ => None
  end.

(** [for (int i = 0; i < ncols; i++) acc += work[row][i];] *)
Definition add_row (work : matrix) (ncols : Z) (row : Z) (acc : Z) : option Z :=
  foldl (add_col work row) (Some acc) (seqZ 0 ncols).

(** Control point and locals of a worker thread.

    - [SLoop num_threads row]: in [sum_static], at the head of the [while]
      loop with [done = false].
    - [DLock]: in [sum_dynamic], at [counter_lock.lock()] (line 100).
    - [DTest]: holding the lock, at [if (counter > 0)] (line 102).
    - [DDec]: holding the lock, at [--counter] (line 104).
    - [DCopy done]: holding the lock, at [count_copy = counter] (line 110).
    - [DUnlock done count_copy]: at [counter_lock.unlock()] (line 112).
    - [DWork count_copy]: at [if (!done)] with [done = false] (line 114).
    - [Finished]: the thread function has returned. *)
Inductive pc : Type :=
| SLoop (num_threads row : Z)
| DLock
| DTest
| DDec
| DCopy (done : bool)
| DUnlock (done : bool) (count_copy : Z)
| DWork (count_copy : Z)
| Finished.

Global Instance pc_eq_dec : EqDecision pc.
Proof. solve_decision. Defined.

(** Control point of [main] once the threads exist: in the joining loop
    (line 225) with its index [i], or returned with an exit code. *)
Inductive main_pc : Type :=
| MJoin (limiter i : Z)
| MExit (code : Z).

Record state : Type := mkState {
  counter : Z;                  (* volatile int counter *)
  counter_lock : option nat;    (* std::mutex counter_lock: its owner *)
  tcount : list Z;              (* std::vector<int> tcount *)
  sum : list Z;                 (* std::vector<uint64_t> sum *)
  total_work : Z;               (* int total_work *)
  gross_sum : Z;                (* uint64_t gross_sum *)
  threads : list pc;            (* the std::thread objects, by thread id *)
  main_at : main_pc;            (* main *)
  (* Instrumentation, never read by the program: *)
  claims : list Z;              (* the values given to count_copy by the
                                   successful claims, in the order of the
                                   critical sections *)
  handled : list (list Z)       (* per worker, the rows it has summed, in
                                   order *)
}.

Inductive outcome : Type :=
| Next (st : state)   (* the step was taken *)
| Blocked             (* the thread cannot step: waiting, or returned *)
| Fault.              (* undefined behaviour or an uncaught exception *)

(** ** The two worker functions *)

Definition set_pc (tid : nat) (p : pc) (st : state) : state :=
  mkState (counter st) (counter_lock st) (tcount st) (sum st) (total_work st)
          (gross_sum st) (<[tid := p]> (threads st)) (main_at st)
          (claims st) (handled st).

(** One row summed by worker [tid]: [sum[tid]] becomes [s], [tcount[tid]]
    becomes [tc], the worker continues at [p]. *)
Definition row_summed (tid : nat) (row s tc : Z) (p : pc) (st : state) : state :=
  mkState (counter st) (counter_lock st) (<[tid := tc]> (tcount st))
          (<[tid := s]> (sum st)) (total_work st) (gross_sum st)
          (<[tid := p]> (threads st)) (main_at st) (claims st)
          (alter (λ l, l ++ [row]) tid (handled st)).

(** One iteration of the [while] loop of [sum_static] (lines 50-66). *)
Definition sum_static (work : matrix) (tid : nat) (num_threads row : Z)
    (st : state) : outcome :=
  if decide (1000 ≤ row) then
    (* done = true; the loop and the function end *)
    Next (set_pc tid Finished st)
  else
    match sum st !! tid, tcount st !! tid with
    | Some s, Some tc =>
        match add_row work 100 row s with
        | Some s' =>
            if decide (in_int (row + num_threads) ∧ in_int (tc + 1)) then
              Next (row_summed tid row s' (tc + 1)
                               (SLoop num_threads (row + num_threads)) st)
            else Fault
        | None => Fault
        end
    | _, _ => Fault
    end.

(** The steps of [sum_dynamic] (lines 96-125). *)
Definition sum_dynamic (work : matrix) (tid : nat) (p : pc) (st : state)
    : outcome :=
  match p with
  | DLock =>
      (* counter_lock.lock() *)
      match counter_lock st with
      | None =>
          Next (mkState (counter st) (Some tid) (tcount st) (sum st)
                        (total_work st) (gross_sum st)
                        (<[tid := DTest]> (threads st)) (main_at st)
                        (claims st) (handled st))
      | Some _ => Blocked
      end
  | DTest =>
      (* if (counter > 0) ... else done = true *)
      if decide (0 < counter st) then Next (set_pc tid DDec st)
      else Next (set_pc tid (DCopy true) st)
  | DDec =>
      (* --counter *)
      if decide (in_int (counter st - 1)) then
        Next (mkState (counter st - 1) (counter_lock st) (tcount st) (sum st)
                      (total_work st) (gross_sum st)
                      (<[tid := DCopy false]> (threads st)) (main_at st)
                      (claims st) (handled st))
      else Fault
  | DCopy done =>
      (* count_copy = counter *)
      Next (mkState (counter st) (counter_lock st) (tcount st) (sum st)
                    (total_work st) (gross_sum st)
                    (<[tid := DUnlock done (counter st)]> (threads st))
                    (main_at st)
                    (if done then claims st else claims st ++ [counter st])
                    (handled st))
  | DUnlock done count_copy =>
      (* counter_lock.unlock(), undefined unless the thread owns the mutex;
         the loop ends when done *)
      if decide (counter_lock st = Some tid) then
        Next (mkState (counter st) None (tcount st) (sum st)
                      (total_work st) (gross_sum st)
                      (<[tid := if done then Finished else DWork count_copy]>
                         (threads st))
                      (main_at st) (claims st) (handled st))
      else Fault
  | DWork count_copy =>
      (* ++tcount[tid]; for (...) sum[tid] += work[count_copy][i] *)
      match tcount st !! tid, sum st !! tid with
      | Some tc, Some s =>
          if decide (in_int (tc + 1)) then
            match add_row work cols count_copy s with
            | Some s' => Next (row_summed tid count_copy s' (tc + 1) DLock st)
            | None => Fault
            end
          else Fault
      | _, _ => Fault
      end
  | _ => Blocked
  end.

(** A step of worker thread [tid]. *)
Definition step_worker (work : matrix) (tid : nat) (st : state) : outcome :=
  match threads st !! tid with
  | None => Blocked
  | Some (SLoop num_threads row) => sum_static work tid num_threads row st
  | Some Finished => Blocked
  | Some p => sum_dynamic work tid p st
  end.

(** ** The aggregation in [main] (lines 225-236) *)

(** One iteration of [for (uint32_t i = 0; i < limiter; ++i)]: join thread
    [i], which blocks until it has returned, and add its results; after the
    loop, [return 0]. *)
Definition step_main (st : state) : outcome :=
  match main_at st with
  | MJoin limiter i =>
      if decide (i < limiter) then
        match threads st !! Z.to_nat i with
        | Some Finished =>
            match tcount st !! Z.to_nat i, sum st !! Z.to_nat i with
            | Some tc, Some s =>
                if decide (in_int (total_work st + tc)) then
                  Next (mkState (counter st) (counter_lock st) (tcount st)
                                (sum st) (total_work st + tc)
                                (to_uint64 (gross_sum st + s)) (threads st)
                                (MJoin limiter (to_uint32 (i + 1)))
                                (claims st) (handled st))
                else Fault
            | _, _ => Fault
            end
        | Some _ => Blocked
        | None => Fault
        end
      else Next (mkState (counter st) (counter_lock st) (tcount st) (sum st)
                         (total_work st) (gross_sum st) (threads st)
                         (MExit 0) (claims st) (handled st))
  | MExit _ => Blocked
  end.

(** ** Interleaving *)

Inductive actor : Type :=
| Worker (tid : nat)
| Main.

Definition step (work : matrix) (a : actor) (st : state) : outcome :=
  match a with
  | Worker tid => step_worker work tid st
  | Main => step_main st
  end.

(** [run work sched st]: the threads step in the order [sched]; every entry
    of the schedule must be able to step. *)
Fixpoint run (work : matrix) (sched : list actor) (st : state) : outcome :=
  match sched with
  | [] => Next st
  | a :: sched' =>
      match step work a st with
      | Next st' => run work sched' st'
      | o => o
      end
  end.

(** ** [main]: the options and the start of the threads *)

(** What [getopt(argc, argv, "dt:")] returns, call after call, until it
    returns -1: ['d'], ['t'] with its argument ([value] is the [int] that
    [atoi(optarg)] returns), or anything else (['?'] for an option that is
    not recognized or for a missing argument). *)
Inductive getopt_result : Type :=
| Opt_d
| Opt_t (value : Z)
| Opt_other.

(** Lines 178-187: [limiter = atoi(optarg)] converts the [int] to
    [uint32_t]; then the two tests, in this order. *)
Definition set_limiter (maxThreads value : Z) : Z :=
  let limiter := to_uint32 value in
  if decide (limiter < 2) then 2
  else if decide (maxThreads < limiter) then maxThreads
  else limiter.

(** The [while] loop over the options (lines 167-193); [None] when
    [usage()] is called. *)
Fixpoint options (maxThreads : Z) (opts : list getopt_result)
    (dFlag : bool) (limiter : Z) : option (bool * Z) :=
  match opts with
  | [] => Some (dFlag, limiter)
  | Opt_d :: opts' => options maxThreads opts' true limiter
  | Opt_t value :: opts' =>
      options maxThreads opts' dFlag (set_limiter maxThreads value)
  | Opt_other :: _ => None
  end.

(** [usage()]: the lines written to [std::cerr] and the argument of
    [exit]. *)
Definition usage : list string * Z :=
  (["Usage: rv32i [-d] [-t num]";
    "    -d Use dynamic load-balancing. (Default: static)";
    "    -t Specifies the number of threads to use. (Default: 2)"], 1).

(** The state when the threads have been created (lines 195-223): the two
    vectors resized to [limiter] zeros, the globals with their initial
    values, thread [i] started on [sum_dynamic(i)] or on
    [sum_static(i, limiter)] (both arguments converted to [int]).  Threads
    that are created later than others only lose steps they could have
    taken: every interleaving of the program is one of this state. *)
Definition init (dFlag : bool) (limiter : Z) : state :=
  let n := Z.to_nat limiter in
  mkState rows None (replicate n 0) (replicate n 0) 0 0
          (if dFlag then replicate n DLock
           else (λ i : nat, SLoop (to_int limiter) (to_int (Z.of_nat i)))
                  <$> seq 0 n)
          (MJoin limiter 0) [] (replicate n []).

(** [main] up to the creation of the threads: either [usage()] ends the
    process, or the threads start. *)
Inductive startup : Type :=
| Usage (err : list string) (code : Z)
| Start (st : state).

Definition main (maxThreads : Z) (opts : list getopt_result) : startup :=
  match options maxThreads opts false 2 with
  | None => Usage (fst usage) (snd usage)
  | Some (dFlag, limiter) => Start (init dFlag limiter)
  end.

(** The exit code of the process, once [main] has returned. *)
Definition exit_code (st : state) : option Z :=
  match main_at st with
  | MExit code => Some code
  | MJoin _ _ => None
  end.

(** The exit code of a whole execution under a schedule, if it ends. *)
Definition main_exit (work : matrix) (maxThreads : Z)
    (opts : list getopt_result) (sched : list actor) : option Z :=
  match main maxThreads opts with
  | Usage _ code => Some code
  | Start st =>
      match run work sched st with
      | Next st' => exit_code st'
      | _ => None
      end
  end.

(** * Specification-side definitions *)

Definition Zsum (l : list Z) : Z := foldr Z.add 0 l.

(** The sum of a row, of a list of rows, and of the whole matrix. *)
Definition row_total (work : matrix) (row : Z) : Z :=
  Zsum (work row <$> seqZ 0 cols).

Definition rows_total (work : matrix) (l : list Z) : Z :=
  Zsum (row_total work <$> l).

Definition matrix_total (work : matrix) : Z :=
  rows_total work (seqZ 0 rows).

(** The entries that [rand()] can return: [0 .. RAND_MAX], which fits an
    [int]. *)
Definition rand_filled (work : matrix) : Prop :=
  ∀ row i, 0 ≤ row < rows → 0 ≤ i < cols → 0 ≤ work row i ≤ INT_MAX.

(** The rows [tid, tid + N, tid + 2N, ...] below [rows], in this order. *)
Definition strided_rows (N : Z) (tid : nat) : list Z :=
  filter (λ r, r < rows) ((λ j, Z.of_nat tid + j * N) <$> seqZ 0 rows).

(** [rows - 1, rows - 2, ..., lo]. *)
Definition down_to (lo : Z) : list Z := reverse (seqZ lo (rows - lo)).

(** Thread counts for which the [int] arithmetic of [sum_static] does not
    overflow: [row += num_threads] is evaluated with [row <= rows - 1]. *)
Definition valid_threads (N : Z) : Prop := 1 ≤ N ∧ N + (rows - 1) ≤ INT_MAX.

Definition is_finished (p : pc) : bool :=
  match p with Finished => true | _ => false end.

(** All the workers have returned. *)
Definition all_done (st : state) : bool := forallb is_finished (threads st).

(** * Auxiliary facts on integers and lists *)

Lemma to_uint64_range z : 0 ≤ to_uint64 z < 2 ^ 64.
Proof. unfold to_uint64. apply Z.mod_pos_bound. lia. Qed.

Lemma to_uint64_small z : 0 ≤ z < 2 ^ 64 → to_uint64 z = z.
Proof. intros. unfold to_uint64. by apply Z.mod_small. Qed.

Lemma to_uint64_add_l a b : to_uint64 (to_uint64 a + b) = to_uint64 (a + b).
Proof. unfold to_uint64. by rewrite Zplus_mod_idemp_l. Qed.

Lemma to_uint64_add_r a b : to_uint64 (a + to_uint64 b) = to_uint64 (a + b).
Proof. unfold to_uint64. by rewrite Zplus_mod_idemp_r. Qed.

Lemma to_int_small z : in_int z → to_int z = z.
Proof.
  unfold in_int, INT_MIN, INT_MAX, to_int. intros.
  rewrite Z.mod_small; lia.
Qed.

Lemma to_uint32_small z : 0 ≤ z ≤ UINT32_MAX → to_uint32 z = z.
Proof. unfold UINT32_MAX, to_uint32. intros. rewrite Z.mod_small; lia. Qed.

Lemma to_uint32_neg z : INT_MIN ≤ z < 0 → to_uint32 z = z + 2 ^ 32.
Proof.
  unfold INT_MIN, to_uint32. intros.
  symmetry. apply (Z.mod_unique_pos _ _ (-1)); lia.
Qed.

Lemma Zsum_app l k : Zsum (l ++ k) = Zsum l + Zsum k.
Proof. unfold Zsum. induction l as [|x l IH]; simpl; lia. Qed.

Lemma Zsum_perm l k : l ≡ₚ k → Zsum l = Zsum k.
Proof. unfold Zsum. induction 1; simpl; lia. Qed.

Lemma rows_total_app work l k :
  rows_total work (l ++ k) = rows_total work l + rows_total work k.
Proof. unfold rows_total. by rewrite fmap_app, Zsum_app. Qed.

Lemma rows_total_perm work l k :
  l ≡ₚ k → rows_total work l = rows_total work k.
Proof. intros H. unfold rows_total. apply Zsum_perm. by rewrite H. Qed.

Lemma rows_total_snoc work l r :
  rows_total work (l ++ [r]) = rows_total work l + row_total work r.
Proof. rewrite rows_total_app. unfold rows_total, Zsum. simpl. lia. Qed.

Lemma Zsum_bounds (l : list Z) (b : Z) :
  Forall (λ v, 0 ≤ v ≤ b) l → 0 ≤ Zsum l ≤ Z.of_nat (length l) * b.
Proof.
  unfold Zsum. induction 1 as [|v l Hv _ IH]; simpl length; simpl foldr; lia.
Qed.

(** The column loop: it succeeds exactly on the rows of the matrix, and
    adds the total of the row modulo 2^64. *)
Lemma add_cols_None work row (js : list Z) :
  foldl (add_col work row) None js = None.
Proof. by induction js. Qed.

Lemma add_cols_Some work row (js : list Z) (acc : Z) :
  0 ≤ row < rows → Forall (λ i, 0 ≤ i < cols) js → 0 ≤ acc < 2 ^ 64 →
  foldl (add_col work row) (Some acc) js
  = Some (to_uint64 (acc + Zsum (work row <$> js))).
Proof.
  intros Hrow Hjs. revert acc.
  induction Hjs as [|i js Hi _ IH]; intros acc Hacc; simpl.
  - by rewrite Z.add_0_r, to_uint64_small.
  - unfold work_at. rewrite decide_True by done.
    rewrite IH by apply to_uint64_range.
    by rewrite to_uint64_add_l, Z.add_assoc.
Qed.

Lemma add_cols_inv work row (i : Z) (js : list Z) (acc s : Z) :
  foldl (add_col work row) (Some acc) (i :: js) = Some s → 0 ≤ row < rows.
Proof.
  simpl. unfold work_at. case_decide as H.
  - tauto.
  - by rewrite add_cols_None.
Qed.

Lemma seqZ_cols_range : Forall (λ i, 0 ≤ i < cols) (seqZ 0 cols).
Proof. apply Forall_seqZ. lia. Qed.

Lemma add_row_Some work row acc :
  0 ≤ row < rows → 0 ≤ acc < 2 ^ 64 →
  add_row work cols row acc = Some (to_uint64 (acc + row_total work row)).
Proof.
  intros. unfold add_row, row_total.
  by apply add_cols_Some; [| apply seqZ_cols_range |].
Qed.

Lemma add_row_inv work row acc s :
  add_row work cols row acc = Some s → 0 ≤ row < rows.
Proof.
  unfold add_row. rewrite (seqZ_cons 0 cols) by done. apply add_cols_inv.
Qed.

(** From here on the column loop is used through the two lemmas above. *)
Global Opaque add_row.

(** Vectors updated at one index, and the concatenation of the per-worker
    lists. *)
Lemma fmap_alter_insert {A B} (f : A → B) (g : A → A) (L : list A) i l :
  L !! i = Some l → <[i := f (g l)]> (f <$> L) = f <$> alter g i L.
Proof.
  revert i. induction L as [|a L IH]; intros [|i] H; simplify_eq/=; [done|].
  f_equal. by apply IH.
Qed.

Lemma mjoin_alter_snoc {A} (L : list (list A)) i l x :
  L !! i = Some l → mjoin (alter (λ l, l ++ [x]) i L) ≡ₚ x :: mjoin L.
Proof.
  revert i. induction L as [|a L IH]; intros [|i] H; simplify_eq/=.
  - rewrite <-app_assoc. simpl. by rewrite <-Permutation_middle.
  - rewrite (IH _ H). by rewrite <-Permutation_middle.
Qed.

Lemma omap_insert_perm {A B} (f : A → option B) (T : list A) i p q :
  T !! i = Some p →
  option_list (f p) ++ omap f (<[i := q]> T) ≡ₚ option_list (f q) ++ omap f T.
Proof.
  revert i. induction T as [|a T IH]; intros [|i] H; simplify_eq/=.
  - destruct (f p), (f q); simpl; try done. apply perm_swap.
  - specialize (IH _ H). destruct (f a) as [b|]; simpl; [|done].
    rewrite <-!Permutation_middle. by rewrite IH.
Qed.

Lemma sum_list_with_insert {A} (w : A → nat) (T : list A) i p q :
  T !! i = Some p →
  (sum_list_with w (<[i := q]> T) + w p = sum_list_with w T + w q)%nat.
Proof.
  revert i. induction T as [|a T IH]; intros [|i] H; simplify_eq/=; [lia|].
  specialize (IH _ H). lia.
Qed.

Lemma lookup_length_mjoin {A} (L : list (list A)) i l :
  L !! i = Some l → (length l ≤ length (mjoin L))%nat.
Proof.
  revert i. induction L as [|a L IH]; intros [|i] H; simplify_eq/=;
    rewrite length_app.
  - lia.
  - specialize (IH _ H). lia.
Qed.

Lemma Zsum_lengths {A} (L : list (list A)) :
  Zsum ((λ l, Z.of_nat (length l)) <$> L) = Z.of_nat (length (mjoin L)).
Proof.
  unfold Zsum. induction L as [|a L IH]; csimpl; [done|].
  rewrite length_app, IH. lia.
Qed.

Lemma Zsum_rows_total work (L : list (list Z)) :
  to_uint64 (Zsum ((λ l, to_uint64 (rows_total work l)) <$> L))
  = to_uint64 (rows_total work (mjoin L)).
Proof.
  induction L as [|a L IH]; [done|].
  change (to_uint64 (to_uint64 (rows_total work a)
                     + Zsum ((λ l, to_uint64 (rows_total work l)) <$> L))
          = to_uint64 (rows_total work (a ++ mjoin L))).
  rewrite to_uint64_add_l, <-to_uint64_add_r, IH, to_uint64_add_r.
  by rewrite rows_total_app.
Qed.

Lemma NoDup_mjoin_lookup {A} (L : list (list A)) :
  (∀ i l, L !! i = Some l → NoDup l) →
  (∀ i j l1 l2 x,
     L !! i = Some l1 → L !! j = Some l2 → x ∈ l1 → x ∈ l2 → i = j) →
  NoDup (mjoin L).
Proof.
  induction L as [|a L IH]; intros Hnd Hdisj; simpl; [constructor|].
  apply NoDup_app. split_and!.
  - by apply (Hnd 0%nat).
  - intros x Hx [l [Hin Hl]]%list_elem_of_join.
    apply list_elem_of_lookup in Hl as [j Hj].
    by specialize (Hdisj 0%nat (S j) a l x eq_refl Hj Hx Hin).
  - apply IH.
    + intros i l. apply (Hnd (S i)).
    + intros i j l1 l2 x H1 H2 Hx1 Hx2.
      by specialize (Hdisj (S i) (S j) l1 l2 x H1 H2 Hx1 Hx2) as [= ->].
Qed.


(** * Invariants of the executions *)

Definition lenZ (l : list Z) : Z := Z.of_nat (length l).

Ltac step_inv H :=
  unfold step_worker, step_main, sum_static, sum_dynamic, set_pc in H;
  repeat case_match; simplify_eq.

(** What a step of a worker can change: its own control point, its own
    entries of [tcount], [sum] and of the log, the counter and its lock;
    never the totals, [main], or another worker's entries. *)
Lemma worker_step_frame work tid st st' :
  step_worker work tid st = Next st' →
  (∃ p p', threads st !! tid = Some p ∧ p ≠ Finished ∧
           threads st' = <[tid := p']> (threads st)) ∧
  (tcount st' = tcount st ∨ ∃ x, tcount st' = <[tid := x]> (tcount st)) ∧
  (sum st' = sum st ∨ ∃ x, sum st' = <[tid := x]> (sum st)) ∧
  (handled st' = handled st ∨
   ∃ x, handled st' = alter (λ l, l ++ [x]) tid (handled st)) ∧
  main_at st' = main_at st ∧ total_work st' = total_work st ∧
  gross_sum st' = gross_sum st.
Proof.
  intros H. step_inv H; simpl;
    (split; [eexists _, _; split_and!; [done..|reflexivity] |]);
    split_and!; eauto.
Qed.

Lemma main_step_frame st st' :
  step_main st = Next st' →
  threads st' = threads st ∧ tcount st' = tcount st ∧ sum st' = sum st ∧
  handled st' = handled st ∧ claims st' = claims st ∧
  counter st' = counter st ∧ counter_lock st' = counter_lock st.
Proof. intros H. by step_inv H. Qed.

Section invariants.
Context (work : matrix) (N : Z).
Hypothesis HN : valid_threads N.

Local Abbreviation n := (Z.to_nat N).

(** The vectors have one entry per thread, and [tcount] and [sum] account
    for the rows of the log. *)
Record acct (st : state) : Prop := mkAcct {
  acct_threads : length (threads st) = n;
  acct_handled : length (handled st) = n;
  acct_tcount : tcount st = lenZ <$> handled st;
  acct_sum : sum st = (λ l, to_uint64 (rows_total work l)) <$> handled st
}.

Lemma acct_row_summed st tid row s tc s' p :
  acct st → tcount st !! tid = Some tc → sum st !! tid = Some s →
  add_row work cols row s = Some s' →
  acct (row_summed tid row s' (tc + 1) p st).
Proof.
  intros [Ht Hh Htc Hs] Htid Hsid Hadd.
  rewrite Htc, list_lookup_fmap_Some in Htid. destruct Htid as (l & -> & Hl).
  rewrite Hs, list_lookup_fmap_Some in Hsid. destruct Hsid as (l' & -> & Hl').
  simplify_eq.
  pose proof (add_row_inv _ _ _ _ Hadd) as Hrow.
  rewrite add_row_Some in Hadd by (done || apply to_uint64_range).
  simplify_eq. constructor; simpl.
  - by rewrite length_insert.
  - by rewrite length_alter.
  - rewrite Htc. erewrite <-fmap_alter_insert by done. f_equal.
    unfold lenZ. rewrite length_app. simpl. lia.
  - rewrite Hs.
    erewrite <-(fmap_alter_insert (λ l, to_uint64 (rows_total work l)))
      by done.
    f_equal. by rewrite to_uint64_add_l, rows_total_snoc.
Qed.

Lemma acct_step a st st' :
  acct st → step work a st = Next st' → acct st'.
Proof.
  intros Hacct H. destruct a as [tid|]; simpl in H.
  - step_inv H; try (by eapply acct_row_summed);
      destruct Hacct; constructor; simpl; by rewrite ?length_insert.
  - step_inv H; destruct Hacct; by constructor.
Qed.

(** Another worker's entries are untouched by a step of worker [tid]. *)
Lemma worker_step_other tid st st' j :
  step_worker work tid st = Next st' → j ≠ tid →
  threads st' !! j = threads st !! j ∧ handled st' !! j = handled st !! j ∧
  tcount st' !! j = tcount st !! j ∧ sum st' !! j = sum st !! j.
Proof.
  intros H Hj. apply worker_step_frame in H
    as ((p & p' & _ & _ & ->) & Htc & Hs & Hh & _).
  split_and!.
  - by rewrite list_lookup_insert_ne.
  - destruct Hh as [->|[x ->]]; [done|]. by rewrite list_lookup_alter_ne.
  - destruct Htc as [->|[x ->]]; [done|]. by rewrite list_lookup_insert_ne.
  - destruct Hs as [->|[x ->]]; [done|]. by rewrite list_lookup_insert_ne.
Qed.

(** ** The aggregation *)

(** The first [k] threads have been joined and their results added. *)
Definition joined (k : nat) (st : state) : Prop :=
  (∀ j, (j < k)%nat → threads st !! j = Some Finished) ∧
  total_work st = Zsum (take k (tcount st)) ∧
  gross_sum st = to_uint64 (Zsum (take k (sum st))).

Definition main_inv (st : state) : Prop :=
  match main_at st with
  | MJoin limiter i =>
      limiter = N ∧ 0 ≤ i ≤ N ∧ joined (Z.to_nat i) st
  | MExit code => code = 0 ∧ joined n st
  end.

Lemma joined_worker_step k tid st st' :
  joined k st → step_worker work tid st = Next st' → joined k st'.
Proof.
  intros (Hfin & Htw & Hgs) H. unfold joined. apply worker_step_frame in H
    as ((p & p' & Hp & Hnf & Hth) & Htc & Hs & _ & _ & -> & ->).
  assert (k ≤ tid)%nat as Hk.
  { destruct (decide (tid < k)%nat) as [Hlt|]; [|lia].
    apply Hfin in Hlt. congruence. }
  split_and!.
  - intros j Hj. rewrite Hth, list_lookup_insert_ne by lia. by apply Hfin.
  - destruct Htc as [->|[x ->]]; [done|]. by rewrite take_insert_ge.
  - destruct Hs as [->|[x ->]]; [done|]. by rewrite take_insert_ge.
Qed.

Lemma joined_next k st tc s m c l cl :
  joined k st → threads st !! k = Some Finished →
  tcount st !! k = Some tc → sum st !! k = Some s →
  joined (S k) (mkState c l (tcount st) (sum st) (total_work st + tc)
                        (to_uint64 (gross_sum st + s)) (threads st) m
                        cl (handled st)).
Proof.
  intros (Hfin & Htw & Hgs) Hk Htc Hs. split_and!; simpl.
  - intros j Hj. destruct (decide (j = k)) as [->|]; [done|].
    apply Hfin. lia.
  - erewrite take_S_r by done. rewrite Zsum_app, Htw. unfold Zsum. simpl. lia.
  - erewrite take_S_r by done. rewrite Zsum_app, Hgs, to_uint64_add_l.
    unfold Zsum. simpl. f_equal. lia.
Qed.

Lemma main_inv_step a st st' :
  main_inv st → step work a st = Next st' → main_inv st'.
Proof.
  intros Hinv H. destruct a as [tid|]; simpl in H.
  - unfold main_inv in *.
    pose proof (worker_step_frame _ _ _ _ H) as (_ & _ & _ & _ & -> & _).
    destruct (main_at st) as [limiter i|code].
    + destruct Hinv as (? & ? & ?). do 2 (split; [done|]).
      by eapply joined_worker_step.
    + destruct Hinv as (? & ?). split; [done|].
      by eapply joined_worker_step.
  - destruct HN as [HN1 HN2]. unfold rows, INT_MAX in HN2.
    step_inv H; unfold main_inv in *; simpl;
      match goal with Hm : main_at st = _ |- _ => rewrite Hm in Hinv end;
      destruct Hinv as (-> & ? & ?).
    + rewrite to_uint32_small by (unfold UINT32_MAX; lia).
      split_and!; [done|lia|lia|].
      replace (Z.to_nat (i + 1)) with (S (Z.to_nat i)) by lia.
      by apply joined_next.
    + split; [done|]. by replace N with i by lia.
Qed.


(** ** The static strategy *)

(** The first [k] rows of worker [tid]: [tid, tid + N, ...]. *)
Definition stride (tid : nat) (k : Z) : list Z :=
  (λ j, Z.of_nat tid + j * N) <$> seqZ 0 k.

(** A static worker has summed [k] rows of its stride, all of them below
    [rows], and is at the next one, or has found it beyond the matrix. *)
Definition static_thread (tid : nat) (p : pc) (l : list Z) : Prop :=
  ∃ k, 0 ≤ k ∧ l = stride tid k ∧
       (k = 0 ∨ Z.of_nat tid + (k - 1) * N < rows) ∧
       (p = SLoop N (Z.of_nat tid + k * N) ∨
        (p = Finished ∧ rows ≤ Z.of_nat tid + k * N)).

Definition static_inv (st : state) : Prop :=
  ∀ tid p l,
    threads st !! tid = Some p → handled st !! tid = Some l →
    static_thread tid p l.

Lemma stride_snoc tid k :
  0 ≤ k → stride tid (k + 1) = stride tid k ++ [Z.of_nat tid + k * N].
Proof.
  intros Hk. unfold stride. rewrite seqZ_app, fmap_app by lia.
  f_equal.
Qed.

Lemma static_inv_step a st st' :
  static_inv st → step work a st = Next st' → static_inv st'.
Proof.
  intros Hinv H tid p l Hp Hl. destruct a as [tid'|]; simpl in H.
  - destruct (decide (tid = tid')) as [->|Hne].
    + pose proof (worker_step_frame _ _ _ _ H)
        as ((p0 & p' & Hp0 & Hnf & Hth) & _ & _ & Hh & _).
      assert (∃ l0, handled st !! tid' = Some l0) as [l0 Hl0].
      { destruct Hh as [Hh|[x Hh]]; rewrite Hh in Hl; [by eexists|].
        rewrite list_lookup_alter_eq in Hl.
        destruct (handled st !! tid'); [by eexists|done]. }
      destruct (Hinv _ _ _ Hp0 Hl0) as (k & Hk & -> & Hlast & [->|[-> _]]);
        [|done].
      unfold step_worker in H. rewrite Hp0 in H.
      unfold sum_static in H. repeat case_match; simplify_eq.
      * simpl in *.
        rewrite list_lookup_insert_eq in Hp
          by (by eapply lookup_lt_Some).
        simplify_eq. exists k. split_and!; try done.
        right. split; [done|]. unfold rows. lia.
      * simpl in *.
        rewrite list_lookup_insert_eq in Hp
          by (by eapply lookup_lt_Some).
        rewrite list_lookup_alter_eq, Hl0 in Hl. simplify_eq/=.
        exists (k + 1). split_and!.
        -- lia.
        -- by rewrite stride_snoc.
        -- right. unfold rows. replace (k + 1 - 1) with k by lia. lia.
        -- left. f_equal. lia.
    + destruct (worker_step_other _ _ _ _ H Hne) as (Hp' & Hl' & _).
      rewrite Hp' in Hp. rewrite Hl' in Hl. by eapply Hinv.
  - apply main_step_frame in H as (Hp' & _ & _ & Hl' & _).
    rewrite Hp' in Hp. rewrite Hl' in Hl. by eapply Hinv.
Qed.


Lemma elem_of_stride tid k x :
  x ∈ stride tid k ↔ ∃ j, 0 ≤ j < k ∧ x = Z.of_nat tid + j * N.
Proof.
  unfold stride. rewrite list_elem_of_fmap. split.
  - intros (j & -> & Hj%elem_of_seqZ). exists j. split; [lia|done].
  - intros (j & Hj & ->). exists j. split; [done|]. apply elem_of_seqZ. lia.
Qed.

Lemma NoDup_stride tid k : NoDup (stride tid k).
Proof.
  destruct HN as [HN1 _]. apply NoDup_fmap_2_strong; [|apply NoDup_seqZ].
  intros x y _ _ Hxy. nia.
Qed.

Lemma stride_residue tid j :
  (tid < n)%nat → (Z.of_nat tid + j * N) mod N = Z.of_nat tid.
Proof.
  intros. destruct HN as [HN1 _].
  rewrite Z.mod_add by lia. apply Z.mod_small. lia.
Qed.

Lemma static_lookup st tid l :
  acct st → static_inv st → handled st !! tid = Some l →
  (tid < n)%nat ∧ ∃ p, threads st !! tid = Some p ∧ static_thread tid p l.
Proof.
  intros [Ht Hh _ _] Hinv Hl.
  assert (tid < n)%nat as Hlt by (rewrite <-Hh; by eapply lookup_lt_Some).
  split; [done|].
  destruct (lookup_lt_is_Some_2 (threads st) tid) as [p Hp]; [lia|].
  exists p. split; [done|]. by eapply Hinv.
Qed.

(** No row is summed twice, and only rows of the matrix are summed. *)
Lemma static_NoDup st :
  acct st → static_inv st → NoDup (mjoin (handled st)).
Proof.
  intros Hacct Hinv. apply NoDup_mjoin_lookup.
  - intros tid l Hl.
    destruct (static_lookup _ _ _ Hacct Hinv Hl)
      as (_ & p & _ & k & _ & -> & _).
    apply NoDup_stride.
  - intros i j l1 l2 x H1 H2 Hx1 Hx2.
    destruct (static_lookup _ _ _ Hacct Hinv H1)
      as (Hi & p1 & _ & k1 & _ & -> & _).
    destruct (static_lookup _ _ _ Hacct Hinv H2)
      as (Hj & p2 & _ & k2 & _ & -> & _).
    apply elem_of_stride in Hx1 as (j1 & _ & E1).
    apply elem_of_stride in Hx2 as (j2 & _ & E2).
    pose proof (stride_residue i j1 Hi) as R1.
    pose proof (stride_residue j j2 Hj) as R2.
    rewrite <-E1 in R1. rewrite <-E2 in R2. lia.
Qed.

Lemma static_in_range st x :
  acct st → static_inv st → x ∈ mjoin (handled st) → 0 ≤ x < rows.
Proof.
  intros Hacct Hinv (l & Hx & Hl)%list_elem_of_join.
  apply list_elem_of_lookup in Hl as [tid Hl].
  destruct (static_lookup _ _ _ Hacct Hinv Hl)
    as (_ & p & _ & k & Hk & -> & Hlast & _).
  apply elem_of_stride in Hx as (j & Hj & ->).
  destruct HN as [HN1 _]. destruct Hlast as [->|Hlast]; [lia|]. nia.
Qed.

(** Once the workers have returned, every row has been summed. *)
Lemma static_complete st x :
  acct st → static_inv st → all_done st = true →
  0 ≤ x < rows → x ∈ mjoin (handled st).
Proof.
  intros Hacct Hinv Hdone Hx. destruct HN as [HN1 _].
  unfold all_done in Hdone. rewrite forallb_forall in Hdone.
  assert (Z.to_nat (x mod N) < n)%nat as Hlt.
  { pose proof (Z.mod_pos_bound x N). lia. }
  destruct (lookup_lt_is_Some_2 (handled st) (Z.to_nat (x mod N)))
    as [l Hl]; [by rewrite (acct_handled _ Hacct)|].
  destruct (static_lookup _ _ _ Hacct Hinv Hl)
    as (_ & p & Hp & k & Hk & -> & _ & Hpc).
  apply list_elem_of_join. eexists. split; [|by eapply list_elem_of_lookup_2].
  assert (Hfin : is_finished p = true).
  { apply Hdone, list_elem_of_In. by eapply list_elem_of_lookup_2. }
  destruct Hpc as [->|[-> Hend]]; [done|].
  apply elem_of_stride. exists (x / N).
  pose proof (Z.div_mod x N) as Hdm. pose proof (Z.mod_pos_bound x N).
  pose proof (Z.div_pos x N).
  rewrite Z2Nat.id in * by lia. split; [nia|lia].
Qed.


(** ** The dynamic strategy *)

(** The control points between [lock()] and [unlock()]. *)
Definition in_cs (p : pc) : bool :=
  match p with
  | DTest | DDec | DCopy _ | DUnlock _ _ => true
  | _ => false
  end.

(** The row that a worker has claimed and not summed yet. *)
Definition pending (p : pc) : option Z :=
  match p with
  | DUnlock false c | DWork c => Some c
  | _ => None
  end.

(** 1 while the owner of the lock has decremented the counter and has not
    copied it yet, 0 otherwise. *)
Definition uncopied_of (L : option nat) (T : list pc) : Z :=
  match L with
  | Some t => match T !! t with Some (DCopy false) => 1 | _ => 0 end
  | None => 0
  end.

Definition uncopied (st : state) : Z :=
  uncopied_of (counter_lock st) (threads st).

Arguments uncopied_of : simpl never.

(** What a control point of [sum_dynamic] tells about the counter [c]. *)
Definition dynamic_pc (c : Z) (p : pc) : Prop :=
  match p with
  | SLoop _ _ => False
  | DDec => 0 < c
  | DCopy false => c < rows
  | DUnlock false count_copy => count_copy = c
  | DCopy true | DUnlock true _ | Finished => c = 0
  | DLock | DTest | DWork _ => True
  end.

Record dynamic_inv (st : state) : Prop := mkDynamic {
  dyn_counter : 0 ≤ counter st ≤ rows;
  dyn_owner : ∀ t, counter_lock st = Some t → is_Some (threads st !! t);
  dyn_lock : ∀ tid p,
    threads st !! tid = Some p →
    (in_cs p = true ↔ counter_lock st = Some tid);
  dyn_pc : ∀ tid p, threads st !! tid = Some p → dynamic_pc (counter st) p;
  dyn_claims : claims st = down_to (counter st + uncopied st);
  dyn_cover : mjoin (handled st) ++ omap pending (threads st) ≡ₚ claims st
}.

Lemma down_to_snoc c :
  0 ≤ c < rows → down_to (c + 1) ++ [c] = down_to c.
Proof.
  intros Hc. unfold down_to. rewrite (seqZ_cons c) by lia.
  rewrite reverse_cons. do 3 f_equal; lia.
Qed.

Lemma elem_of_down_to c x : x ∈ down_to c ↔ c ≤ x < rows.
Proof.
  unfold down_to. rewrite elem_of_reverse, elem_of_seqZ. lia.
Qed.

Lemma length_down_to c : 0 ≤ c → (length (down_to c) ≤ Z.to_nat rows)%nat.
Proof.
  intros. unfold down_to. rewrite length_reverse, length_seqZ. lia.
Qed.


(** The lock discipline and the facts on the other threads when thread
    [tid] moves from [p] to [p']. *)
Section thread_update.
Context (T : list pc) (L : option nat) (tid : nat) (p p' : pc).
Hypothesis Hlock :
  ∀ t q, T !! t = Some q → (in_cs q = true ↔ L = Some t).
Hypothesis Hp : T !! tid = Some p.

Lemma lock_same t q :
  in_cs p' = in_cs p →
  <[tid := p']> T !! t = Some q → (in_cs q = true ↔ L = Some t).
Proof.
  intros Hcs [(<- & <- & _)|(Hne & Hq)]%list_lookup_insert_Some.
  - rewrite Hcs. by apply Hlock.
  - by apply Hlock.
Qed.

Lemma lock_acquire t q :
  L = None → in_cs p' = true →
  <[tid := p']> T !! t = Some q → (in_cs q = true ↔ Some tid = Some t).
Proof.
  intros HL Hcs [(<- & <- & _)|(Hne & Hq)]%list_lookup_insert_Some.
  - done.
  - apply Hlock in Hq. rewrite HL in Hq. split; [|congruence].
    intros Hcsq. by apply Hq in Hcsq.
Qed.

Lemma lock_release t q :
  L = Some tid → in_cs p' = false →
  <[tid := p']> T !! t = Some q → (in_cs q = true ↔ None = Some t).
Proof.
  intros HL Hcs [(<- & <- & _)|(Hne & Hq)]%list_lookup_insert_Some.
  - by rewrite Hcs.
  - apply Hlock in Hq. rewrite HL in Hq. split; [|done].
    intros Hcsq. apply Hq in Hcsq. congruence.
Qed.

Lemma owner_update (L' : option nat) t :
  (∀ t, L = Some t → is_Some (T !! t)) → L' = L ∨ L' = Some tid →
  L' = Some t → is_Some (<[tid := p']> T !! t).
Proof.
  intros Hown HL' Ht. apply lookup_lt_is_Some. rewrite length_insert.
  apply lookup_lt_is_Some. destruct HL' as [->| ->]; [by apply Hown|].
  by simplify_eq.
Qed.

Lemma pc_same c t q :
  (∀ t q, T !! t = Some q → dynamic_pc c q) → dynamic_pc c p' →
  <[tid := p']> T !! t = Some q → dynamic_pc c q.
Proof.
  intros Hpc Hp' [(<- & <- & _)|(Hne & Hq)]%list_lookup_insert_Some;
    [done|by eapply Hpc].
Qed.

Lemma cover_update (H : list Z) (cl : list Z) :
  H ++ omap pending T ≡ₚ cl →
  H ++ option_list (pending p) ++ omap pending (<[tid := p']> T)
  ≡ₚ option_list (pending p') ++ cl.
Proof.
  intros <-. rewrite (omap_insert_perm pending T tid p p' Hp).
  by rewrite Permutation_app_swap_app.
Qed.
End thread_update.


Lemma uncopied_owner T tid p p' :
  T !! tid = Some p →
  uncopied_of (Some tid) (<[tid := p']> T)
  = match p' with DCopy false => 1 | _ => 0 end.
Proof.
  intros Hp. unfold uncopied_of.
  by rewrite list_lookup_insert_eq by (by eapply lookup_lt_Some).
Qed.

Lemma uncopied_other T L tid p' :
  L ≠ Some tid → uncopied_of L (<[tid := p']> T) = uncopied_of L T.
Proof.
  intros HL. unfold uncopied_of. destruct L as [t|]; [|done].
  by rewrite list_lookup_insert_ne by congruence.
Qed.

Lemma dynamic_inv_step a st st' :
  acct st → dynamic_inv st → step work a st = Next st' → dynamic_inv st'.
Proof.
  intros Hacct [Hc Hown Hlock Hpc Hcl Hcov] H.
  destruct a as [tid|]; simpl in H.
  2:{ apply main_step_frame in H as (HT & _ & _ & HH & HC & Hcnt & HL).
      constructor; unfold uncopied; rewrite ?HT, ?HH, ?HC, ?Hcnt, ?HL;
        done. }
  pose proof (worker_step_frame _ _ _ _ H) as ((p & p' & Hp & Hnf & _) & _).
  pose proof (Hpc _ _ Hp) as Hpcp. pose proof (Hlock _ _ Hp) as Hlk.
  unfold uncopied in Hcl.
  unfold step_worker in H. rewrite Hp in H.
  destruct p as [| | | |dn|dn c|c|]; simpl in Hpcp, Hlk;
    [done| | | | | | |done].
  - (* lock *)
    simpl in H. destruct (counter_lock st) as [t|] eqn:HL; [done|].
    simplify_eq. constructor; unfold uncopied; simpl.
    + done.
    + intros t. eapply owner_update; eauto.
    + intros t q. by eapply lock_acquire.
    + intros t q. by eapply pc_same.
    + by erewrite uncopied_owner.
    + exact (cover_update _ _ _ DTest Hp _ _ Hcov).
  - (* test *)
    assert (counter_lock st = Some tid) as HL by (by apply Hlk).
    rewrite HL in Hcl. unfold uncopied_of in Hcl. rewrite Hp in Hcl.
    simpl in H. unfold set_pc in H. case_decide; simplify_eq;
      constructor; unfold uncopied; simpl; rewrite ?HL.
    + done.
    + intros t. eapply owner_update; eauto.
    + intros t q. rewrite <-HL. by eapply lock_same.
    + intros t q. by eapply pc_same.
    + by erewrite uncopied_owner.
    + exact (cover_update _ _ _ DDec Hp _ _ Hcov).
    + done.
    + intros t. eapply owner_update; eauto.
    + intros t q. rewrite <-HL. by eapply lock_same.
    + intros t q. eapply pc_same; eauto. simpl. lia.
    + by erewrite uncopied_owner.
    + exact (cover_update _ _ _ (DCopy true) Hp _ _ Hcov).
  - (* decrement *)
    assert (counter_lock st = Some tid) as HL by (by apply Hlk).
    rewrite HL in Hcl. unfold uncopied_of in Hcl. rewrite Hp in Hcl.
    simpl in H. case_decide; simplify_eq.
    constructor; unfold uncopied; simpl; rewrite ?HL.
    + lia.
    + intros t. eapply owner_update; eauto.
    + intros t q. rewrite <-HL. by eapply lock_same.
    + intros t q [(<- & <- & _)|(Hne & Hq)]%list_lookup_insert_Some;
        simpl; [lia|].
      pose proof (Hpc _ _ Hq) as Hq'. pose proof (Hlock _ _ Hq) as Hq''.
      rewrite HL in Hq''.
      destruct q as [| | | |[]|[]| |]; simpl in *; try done; try lia;
        (assert (Some tid = Some t) by (by apply Hq''); congruence).
    + erewrite uncopied_owner by done. rewrite Hcl. f_equal. lia.
    + exact (cover_update _ _ _ (DCopy false) Hp _ _ Hcov).
  - (* copy *)
    assert (counter_lock st = Some tid) as HL by (by apply Hlk).
    rewrite HL in Hcl. unfold uncopied_of in Hcl. rewrite Hp in Hcl.
    simpl in H. simplify_eq.
    constructor; unfold uncopied; simpl; rewrite ?HL.
    + done.
    + intros t. eapply owner_update; eauto.
    + intros t q. rewrite <-HL. by eapply lock_same.
    + intros t q. eapply pc_same; eauto. by destruct dn.
    + erewrite uncopied_owner by done. destruct dn.
      * by rewrite Hcl.
      * rewrite Hcl, Z.add_0_r. apply down_to_snoc. lia.
    + destruct dn.
      * exact (cover_update _ _ _ (DUnlock true _) Hp _ _ Hcov).
      * rewrite <-Permutation_cons_append.
        exact (cover_update _ _ _ (DUnlock false _) Hp _ _ Hcov).
  - (* unlock *)
    assert (counter_lock st = Some tid) as HL by (by apply Hlk).
    rewrite HL in Hcl. unfold uncopied_of in Hcl. rewrite Hp in Hcl.
    simpl in H. rewrite decide_True in H by done. simplify_eq.
    constructor; unfold uncopied; simpl.
    + done.
    + done.
    + intros t q. eapply lock_release; eauto. by destruct dn.
    + intros t q. eapply pc_same; eauto. by destruct dn.
    + done.
    + destruct dn.
      * exact (cover_update _ _ _ Finished Hp _ _ Hcov).
      * pose proof (cover_update _ _ _ (DWork c) Hp _ _ Hcov) as Hc'.
        simpl in Hc'. rewrite <-Permutation_middle in Hc'.
        by apply Permutation_cons_inv in Hc'.
  - (* the row *)
    assert (counter_lock st ≠ Some tid) as HL.
    { intros HL. by apply Hlk in HL. }
    unfold sum_dynamic in H. repeat case_match; simplify_eq.
    match goal with Ht : tcount st !! tid = Some _ |- _ =>
      rewrite (acct_tcount _ Hacct), list_lookup_fmap_Some in Ht;
      destruct Ht as (l & _ & Hl) end.
    constructor; unfold uncopied; simpl.
    + done.
    + intros t. eapply owner_update; eauto.
    + intros t q. by eapply lock_same.
    + intros t q. by eapply pc_same.
    + by rewrite uncopied_other.
    + rewrite (mjoin_alter_snoc _ _ _ _ Hl). simpl.
      rewrite Permutation_middle.
      exact (cover_update _ _ _ DLock Hp _ _ Hcov).
Qed.


(** ** The invariant of both strategies *)

Definition inv (dFlag : bool) (st : state) : Prop :=
  acct st ∧ main_inv st ∧
  if dFlag then dynamic_inv st else static_inv st.

Lemma valid_threads_int : in_int N ∧ 0 ≤ N ≤ UINT32_MAX.
Proof.
  destruct HN as [HN1 HN2].
  unfold in_int, INT_MIN, INT_MAX, UINT32_MAX, rows in *. lia.
Qed.

Lemma mjoin_replicate_nil {A} k : mjoin (replicate k (@nil A)) = [].
Proof. induction k; [done|]. simpl. done. Qed.

Lemma omap_pending_replicate k : omap pending (replicate k DLock) = [].
Proof. induction k; [done|]. simpl. done. Qed.

Lemma inv_init dFlag : inv dFlag (init dFlag N).
Proof.
  unfold inv, init. split_and!.
  - constructor; simpl.
    + destruct dFlag; by rewrite ?length_replicate, ?length_fmap, ?length_seq.
    + by rewrite length_replicate.
    + by rewrite fmap_replicate.
    + by rewrite fmap_replicate.
  - unfold main_inv, joined. simpl. destruct HN. split_and!; try done; lia.
  - destruct dFlag.
    + constructor; unfold uncopied; simpl.
      * unfold rows. lia.
      * done.
      * intros tid p [-> _]%lookup_replicate. done.
      * intros tid p [-> _]%lookup_replicate. done.
      * unfold down_to, uncopied_of. by rewrite seqZ_nil by lia.
      * by rewrite mjoin_replicate_nil, omap_pending_replicate.
    + intros tid p l. simpl.
      rewrite list_lookup_fmap_Some.
      intros (i & -> & [-> Hi]%lookup_seq) [-> _]%lookup_replicate.
      destruct valid_threads_int as [HNi _]. simpl in Hi.
      exists 0. split_and!; try done; [by left|]. left.
      rewrite (to_int_small N) by done.
      rewrite to_int_small by (unfold in_int, INT_MIN, INT_MAX in *; lia).
      f_equal. lia.
Qed.

Lemma inv_step dFlag a st st' :
  inv dFlag st → step work a st = Next st' → inv dFlag st'.
Proof.
  intros (Hacct & Hmain & Hstrat) H. split_and!.
  - by eapply acct_step.
  - by eapply main_inv_step.
  - destruct dFlag; [by eapply dynamic_inv_step|by eapply static_inv_step].
Qed.

Lemma inv_run dFlag sched st st' :
  inv dFlag st → run work sched st = Next st' → inv dFlag st'.
Proof.
  revert st. induction sched as [|a sched IH]; intros st Hinv H; simpl in H.
  - by simplify_eq.
  - destruct (step work a st) as [st1| |] eqn:Hstep; [|done..].
    eapply IH; [|done]. by eapply inv_step.
Qed.

(** Every state that an execution reaches from the start of the threads. *)
Lemma inv_reachable dFlag sched st :
  run work sched (init dFlag N) = Next st → inv dFlag st.
Proof. apply inv_run, inv_init. Qed.


(** ** Bounds *)

Lemma uncopied_range st : 0 ≤ uncopied st ≤ 1.
Proof.
  unfold uncopied, uncopied_of. repeat case_match; lia.
Qed.

(** At most [rows] rows are ever summed. *)
Lemma handled_bound dFlag st :
  inv dFlag st → (length (mjoin (handled st)) ≤ Z.to_nat rows)%nat.
Proof.
  intros (Hacct & _ & Hstrat). destruct dFlag.
  - destruct Hstrat as [Hc _ _ _ Hcl Hcov].
    apply Permutation_length in Hcov. rewrite length_app, Hcl in Hcov.
    pose proof (uncopied_range st).
    pose proof (length_down_to (counter st + uncopied st)). lia.
  - rewrite <-(length_seqZ 0 rows). apply submseteq_length, NoDup_submseteq.
    + by apply static_NoDup.
    + intros x Hx. apply elem_of_seqZ.
      pose proof (static_in_range _ _ Hacct Hstrat Hx). lia.
Qed.

Lemma tcount_bound dFlag st tid tc :
  inv dFlag st → tcount st !! tid = Some tc → 0 ≤ tc ≤ rows.
Proof.
  intros Hinv Htc. pose proof (handled_bound _ _ Hinv) as Hb.
  destruct Hinv as (Hacct & _).
  rewrite (acct_tcount _ Hacct), list_lookup_fmap_Some in Htc.
  destruct Htc as (l & -> & Hl). apply lookup_length_mjoin in Hl.
  unfold lenZ, rows in *. lia.
Qed.

(** A claimed row is a row of the matrix. *)
Lemma pending_range st tid p c :
  dynamic_inv st → threads st !! tid = Some p → pending p = Some c →
  0 ≤ c < rows.
Proof.
  intros [Hc _ _ _ Hcl Hcov] Hp Hpend.
  assert (c ∈ claims st) as Hin.
  { rewrite <-Hcov. apply elem_of_app. right. apply list_elem_of_omap.
    exists p. split; [by eapply list_elem_of_lookup_2|done]. }
  rewrite Hcl in Hin. apply elem_of_down_to in Hin.
  pose proof (uncopied_range st). lia.
Qed.

Lemma Zsum_take_le (l : list Z) k :
  Forall (λ x, 0 ≤ x) l → 0 ≤ Zsum (take k l) ≤ Zsum l.
Proof.
  unfold Zsum. intros Hl. revert k.
  induction Hl as [|x l Hx _ IH]; intros [|k]; simpl; try lia.
  - assert (0 ≤ foldr Z.add 0 l) by (specialize (IH 0%nat); simpl in IH; lia).
    lia.
  - specialize (IH k). lia.
Qed.

Lemma tcount_total dFlag st :
  inv dFlag st → Forall (λ x, 0 ≤ x) (tcount st) ∧ Zsum (tcount st) ≤ rows.
Proof.
  intros Hinv. pose proof (handled_bound _ _ Hinv) as Hb.
  destruct Hinv as (Hacct & _). rewrite (acct_tcount _ Hacct). split.
  - apply Forall_fmap, Forall_true. intros l. unfold lenZ. simpl. lia.
  - unfold lenZ. rewrite Zsum_lengths. unfold rows in *. lia.
Qed.


(** ** No undefined behaviour *)

Lemma acct_lookups st tid p :
  acct st → threads st !! tid = Some p →
  ∃ l, handled st !! tid = Some l ∧ tcount st !! tid = Some (lenZ l) ∧
       sum st !! tid = Some (to_uint64 (rows_total work l)).
Proof.
  intros [Ht Hh Htc Hs] Hp.
  destruct (lookup_lt_is_Some_2 (handled st) tid) as [l Hl].
  { rewrite Hh, <-Ht. by eapply lookup_lt_Some. }
  exists l. by rewrite Htc, Hs, !list_lookup_fmap, Hl.
Qed.

Lemma step_safe dFlag a st : inv dFlag st → step work a st ≠ Fault.
Proof.
  intros Hinv. pose proof Hinv as (Hacct & Hmain & Hstrat).
  destruct HN as [HN1 HN2]. destruct a as [tid|]; simpl.
  - unfold step_worker. destruct (threads st !! tid) as [p|] eqn:Hp; [|done].
    destruct (acct_lookups _ _ _ Hacct Hp) as (l & Hl & Htc & Hs).
    pose proof (tcount_bound _ _ _ _ Hinv Htc) as Hb.
    assert (in_int (lenZ l + 1)) as Hint.
    { unfold in_int, INT_MIN, INT_MAX, rows in *. lia. }
    destruct dFlag.
    + pose proof (dyn_pc _ Hstrat _ _ Hp) as Hpc.
      pose proof (dyn_lock _ Hstrat _ _ Hp) as Hlk.
      pose proof (dyn_counter _ Hstrat) as Hc.
      destruct p as [| | | |dn|dn c|c|]; simpl in *; try done.
      * by destruct (counter_lock st).
      * by case_decide.
      * rewrite decide_True; [done|].
        unfold in_int, INT_MIN, INT_MAX, rows in *. lia.
      * rewrite decide_True; [done|]. by apply Hlk.
      * rewrite Htc, Hs, decide_True by done.
        rewrite add_row_Some; [done| |apply to_uint64_range].
        by eapply pending_range.
    + destruct (Hstrat _ _ _ Hp Hl) as (k & Hk & -> & Hlast & [->|[-> _]]);
        [|done].
      unfold sum_static. case_decide; [done|]. rewrite Hs, Htc.
      change (add_row work 100) with (add_row work cols).
      rewrite add_row_Some; [| |apply to_uint64_range].
      * rewrite decide_True; [done|]. split; [|done].
        unfold in_int, INT_MIN, INT_MAX, rows in *. nia.
      * unfold rows. nia.
  - unfold step_main, main_inv in *.
    destruct (main_at st) as [limiter i|code]; [|done].
    destruct Hmain as (-> & Hi & Hfin & Htw & Hgs).
    case_decide as Hlt; [|done].
    destruct (lookup_lt_is_Some_2 (threads st) (Z.to_nat i)) as [p Hp].
    { rewrite (acct_threads _ Hacct). lia. }
    rewrite Hp.
    destruct (acct_lookups _ _ _ Hacct Hp) as (l & Hl & Htc & Hs).
    rewrite Htc, Hs. destruct p; try done.
    rewrite decide_True; [done|].
    destruct (tcount_total _ _ Hinv) as [Hpos Hsum].
    pose proof (Zsum_take_le _ (Z.to_nat i) Hpos).
    pose proof (Zsum_take_le _ (S (Z.to_nat i)) Hpos) as Hle.
    erewrite take_S_r, Zsum_app in Hle by done.
    unfold Zsum at 2 in Hle. simpl in Hle.
    unfold in_int, INT_MIN, INT_MAX, rows in *. lia.
Qed.

Lemma run_safe dFlag sched st : inv dFlag st → run work sched st ≠ Fault.
Proof.
  revert st. induction sched as [|a sched IH]; intros st Hinv; simpl; [done|].
  destruct (step work a st) as [st1| |] eqn:Hstep; [|done|].
  - apply IH. by eapply inv_step.
  - by eapply step_safe in Hstep.
Qed.


(** ** Termination *)

(** The number of steps a thread can still take without a decrement of
    the counter in between; each decrement is worth six steps. *)
Definition weight (p : pc) : nat :=
  match p with
  | SLoop _ row => S (Z.to_nat (rows - row))
  | Finished => 0
  | DUnlock true _ => 1
  | DCopy true => 2
  | DDec => 3
  | DTest => 4
  | DLock => 5
  | DWork _ => 6
  | DUnlock false _ => 7
  | DCopy false => 8
  end.

Definition main_weight (m : main_pc) : nat :=
  match m with
  | MJoin limiter i => S (Z.to_nat (limiter - i))
  | MExit _ => 0
  end.

Definition measure (st : state) : nat :=
  6 * Z.to_nat (counter st) + sum_list_with weight (threads st)
  + main_weight (main_at st).

Lemma measure_step dFlag a st st' :
  inv dFlag st → step work a st = Next st' → (measure st' < measure st)%nat.
Proof.
  intros (Hacct & Hmain & Hstrat) H. destruct HN as [HN1 HN2].
  unfold measure. destruct a as [tid|]; simpl in H.
  - pose proof (worker_step_frame _ _ _ _ H)
      as ((p & _ & Hp & _ & _) & _ & _ & _ & -> & _).
    assert (match p with
            | SLoop num_threads _ => num_threads = N
            | DDec => 0 < counter st
            | _ => True
            end) as Hpc.
    { destruct (acct_lookups _ _ _ Hacct Hp) as (l & Hl & _).
      destruct dFlag.
      - pose proof (dyn_pc _ Hstrat _ _ Hp). by destruct p.
      - destruct (Hstrat _ _ _ Hp Hl) as (k & _ & _ & _ & [->|[-> _]]);
          done. }
    unfold step_worker in H. rewrite Hp in H.
    destruct p as [nt row| | | |dn|dn c|c|];
      unfold sum_static, sum_dynamic, set_pc, row_summed in H;
      repeat case_match; simplify_eq; simpl;
      match goal with
      | |- context [<[tid := ?p']> (threads st)] =>
          pose proof (sum_list_with_insert weight _ _ _ p' Hp) as Hw
      end;
      simpl in Hw; unfold rows in *; lia.
  - unfold step_main in H. unfold main_inv in Hmain.
    destruct (main_at st) as [limiter i|code]; [|done].
    destruct Hmain as (-> & Hi & _).
    repeat case_match; simplify_eq; simpl;
      rewrite ?to_uint32_small
        by (unfold UINT32_MAX, INT_MAX, rows in *; lia);
      lia.
Qed.

(** An execution cannot be longer than the measure of its first state. *)
Lemma run_length dFlag sched st st' :
  inv dFlag st → run work sched st = Next st' →
  (length sched + measure st' ≤ measure st)%nat.
Proof.
  revert st. induction sched as [|a sched IH]; intros st Hinv H; simpl in H.
  - simplify_eq. simpl. lia.
  - destruct (step work a st) as [st1| |] eqn:Hstep; [|done..].
    pose proof (measure_step _ _ _ _ Hinv Hstep).
    pose proof (IH _ (inv_step _ _ _ _ Hinv Hstep) H). simpl. lia.
Qed.


(** ** Progress: no deadlock *)

Lemma all_done_lookup st tid p :
  all_done st = true → threads st !! tid = Some p → p = Finished.
Proof.
  unfold all_done. rewrite forallb_forall. intros Hall Hp.
  assert (is_finished p = true) as Hf.
  { apply Hall, list_elem_of_In. by eapply list_elem_of_lookup_2. }
  by destruct p.
Qed.

Lemma exit_done dFlag st code :
  inv dFlag st → exit_code st = Some code →
  code = 0 ∧ all_done st = true.
Proof.
  intros (Hacct & Hmain & _) Hex. unfold exit_code, main_inv in *.
  destruct (main_at st) as [|code']; [done|]. simplify_eq.
  destruct Hmain as (-> & Hfin & _). split; [done|].
  unfold all_done. apply forallb_forall. intros p Hp.
  apply list_elem_of_In, list_elem_of_lookup in Hp as [j Hj].
  rewrite Hfin in Hj; [by simplify_eq|].
  rewrite <-(acct_threads _ Hacct). by eapply lookup_lt_Some.
Qed.

(** While [main] has not returned, some thread can take a step. *)
Lemma progress dFlag st :
  inv dFlag st → exit_code st = None →
  ∃ a st', step work a st = Next st'.
Proof.
  intros Hinv Hex. pose proof Hinv as (Hacct & Hmain & Hstrat).
  assert (∀ a, step work a st ≠ Blocked →
               ∃ a st', step work a st = Next st') as Hnb.
  { intros a Ha. exists a. destruct (step work a st) as [st'| |] eqn:E.
    - by exists st'.
    - done.
    - by eapply step_safe in E. }
  unfold exit_code in Hex. unfold main_inv in Hmain.
  destruct (main_at st) as [limiter i|] eqn:Hm; [|done].
  destruct Hmain as (-> & Hi & _).
  destruct (decide (i < N)) as [Hlt|Hge].
  2:{ apply (Hnb Main). simpl. unfold step_main.
      by rewrite Hm, decide_False. }
  destruct (lookup_lt_is_Some_2 (threads st) (Z.to_nat i)) as [p Hp].
  { rewrite (acct_threads _ Hacct). lia. }
  destruct (acct_lookups _ _ _ Hacct Hp) as (l & Hl & Htc & Hs).
  assert (step work Main st ≠ Blocked ∨ p ≠ Finished) as [Hmn|Hnf].
  { destruct (decide (p = Finished)) as [->|]; [left|by right].
    simpl. unfold step_main. rewrite Hm, decide_True, Hp, Htc, Hs by done.
    by case_decide. }
  { by apply (Hnb Main). }
  destruct dFlag.
  - destruct (counter_lock st) as [t|] eqn:HL.
    + destruct (dyn_owner _ Hstrat _ HL) as [q Hq].
      pose proof (proj2 (dyn_lock _ Hstrat _ _ Hq) HL) as Hcs.
      apply (Hnb (Worker t)). simpl. unfold step_worker. rewrite Hq.
      destruct q; try done; unfold sum_dynamic; by repeat case_match.
    + pose proof (dyn_lock _ Hstrat _ _ Hp) as Hlk. rewrite HL in Hlk.
      pose proof (dyn_pc _ Hstrat _ _ Hp) as Hpc.
      apply (Hnb (Worker (Z.to_nat i))). simpl. unfold step_worker.
      rewrite Hp.
      destruct p; try done; unfold sum_dynamic; rewrite ?HL;
        try (by repeat case_match);
        (assert (None = Some (Z.to_nat i)) by (by apply Hlk); done).
  - destruct (Hstrat _ _ _ Hp Hl) as (k & _ & _ & _ & [->|[-> _]]);
      [|done].
    apply (Hnb (Worker (Z.to_nat i))). simpl. unfold step_worker.
    rewrite Hp. unfold sum_static. by repeat case_match.
Qed.

(** From every state of an execution the program can be run to its end,
    where [main] returns 0 and all the workers have returned. *)
Lemma completes dFlag st :
  inv dFlag st →
  ∃ sched st', run work sched st = Next st' ∧
               exit_code st' = Some 0 ∧ all_done st' = true.
Proof.
  remember (measure st) as m eqn:Hm. revert st Hm.
  induction (lt_wf m) as [m _ IH]. intros st -> Hinv.
  destruct (exit_code st) as [code|] eqn:Hex.
  - destruct (exit_done _ _ _ Hinv Hex) as [-> Hdone].
    by exists [], st.
  - destruct (progress _ _ Hinv Hex) as (a & st1 & Hstep).
    destruct (IH (measure st1) (measure_step _ _ _ _ Hinv Hstep)
                 st1 eq_refl (inv_step _ _ _ _ Hinv Hstep))
      as (sched & st' & Hrun & Hfin).
    exists (a :: sched), st'. simpl. by rewrite Hstep.
Qed.


(** ** The results at the end *)

(** When the workers have returned, the rows they have summed are the
    rows of the matrix, each one once. *)
Lemma final_coverage dFlag st :
  inv dFlag st → all_done st = true → mjoin (handled st) ≡ₚ seqZ 0 rows.
Proof.
  intros (Hacct & _ & Hstrat) Hdone. destruct dFlag.
  - destruct Hstrat as [Hc Hown Hlock Hpc Hcl Hcov].
    assert (omap pending (threads st) = []) as Hpend.
    { apply list_eq. intros j. rewrite lookup_nil.
      destruct (omap pending (threads st) !! j) as [c|] eqn:Hj; [|done].
      apply list_elem_of_lookup_2, list_elem_of_omap in Hj
        as (p & Hp & Hpc').
      apply list_elem_of_lookup in Hp as [tid Hp].
      by rewrite (all_done_lookup _ _ _ Hdone Hp) in Hpc'. }
    assert (counter st = 0) as Hc0.
    { destruct (lookup_lt_is_Some_2 (threads st) 0) as [p Hp].
      - rewrite (acct_threads _ Hacct). destruct HN. lia.
      - pose proof (Hpc _ _ Hp) as Hpc0.
        by rewrite (all_done_lookup _ _ _ Hdone Hp) in Hpc0. }
    assert (uncopied st = 0) as Hu.
    { unfold uncopied, uncopied_of.
      destruct (counter_lock st) as [t|]; [|done].
      destruct (threads st !! t) as [p|] eqn:Hp; [|done].
      by rewrite (all_done_lookup _ _ _ Hdone Hp). }
    rewrite Hpend, app_nil_r, Hcl, Hc0, Hu in Hcov.
    rewrite Hcov. unfold down_to. by rewrite reverse_Permutation.
  - apply NoDup_Permutation.
    + by apply static_NoDup.
    + apply NoDup_seqZ.
    + intros x. rewrite elem_of_seqZ. split.
      * intros Hx. pose proof (static_in_range _ _ Hacct Hstrat Hx). lia.
      * intros Hx. apply static_complete; [done..|lia].
Qed.

(** The claims of a whole dynamic execution: [rows - 1] down to 0. *)
Lemma final_claims st :
  inv true st → all_done st = true → claims st = down_to 0.
Proof.
  intros (Hacct & _ & [Hc Hown Hlock Hpc Hcl Hcov]) Hdone.
  destruct (lookup_lt_is_Some_2 (threads st) 0) as [p Hp].
  { rewrite (acct_threads _ Hacct). destruct HN. lia. }
  pose proof (Hpc _ _ Hp) as Hpc0.
  rewrite (all_done_lookup _ _ _ Hdone Hp) in Hpc0. simpl in Hpc0.
  rewrite Hcl, Hpc0. f_equal. unfold uncopied, uncopied_of.
  destruct (counter_lock st) as [t|]; [|done].
  destruct (threads st !! t) as [q|] eqn:Hq; [|done].
  by rewrite (all_done_lookup _ _ _ Hdone Hq).
Qed.

(** The totals that [main] prints. *)
Lemma final_totals dFlag st code :
  inv dFlag st → exit_code st = Some code →
  total_work st = rows ∧ gross_sum st = to_uint64 (matrix_total work).
Proof.
  intros Hinv Hex. destruct (exit_done _ _ _ Hinv Hex) as [-> Hdone].
  pose proof (final_coverage _ _ Hinv Hdone) as Hcov.
  destruct Hinv as (Hacct & Hmain & _).
  unfold exit_code, main_inv in *.
  destruct (main_at st) as [|code']; [done|].
  destruct Hmain as (_ & _ & Htw & Hgs).
  rewrite take_ge in Htw, Hgs.
  - rewrite Htw, Hgs, (acct_tcount _ Hacct), (acct_sum _ Hacct). split.
    + unfold lenZ. rewrite Zsum_lengths, Hcov, length_seqZ.
      unfold rows. lia.
    + rewrite Zsum_rows_total. unfold matrix_total.
      by rewrite (rows_total_perm _ _ _ Hcov).
  - rewrite (acct_sum _ Hacct), length_fmap, (acct_handled _ Hacct). lia.
  - rewrite (acct_tcount _ Hacct), length_fmap, (acct_handled _ Hacct).
    lia.
Qed.

Lemma filter_all (P : Z → Prop) `{!∀ x, Decision (P x)} (l : list Z) :
  Forall P l → filter P l = l.
Proof.
  induction 1 as [|x l Hx _ IH]; [done|].
  by rewrite filter_cons_True, IH.
Qed.

Lemma filter_none (P : Z → Prop) `{!∀ x, Decision (P x)} (l : list Z) :
  Forall (λ x, ¬ P x) l → filter P l = [].
Proof.
  induction 1 as [|x l Hx _ IH]; [done|].
  by rewrite filter_cons_False, IH.
Qed.

(** A static worker that has returned has summed exactly its stride. *)
Lemma static_final st tid :
  inv false st → threads st !! tid = Some Finished →
  handled st !! tid = Some (strided_rows N tid).
Proof.
  intros (Hacct & _ & Hstrat) Hp. destruct HN as [HN1 _].
  destruct (acct_lookups _ _ _ Hacct Hp) as (l & Hl & _).
  destruct (Hstrat _ _ _ Hp Hl) as (k & Hk & -> & Hlast & [?|[_ Hend]]);
    [done|].
  rewrite Hl. f_equal. unfold strided_rows, stride.
  assert (k ≤ rows) as Hkr by (destruct Hlast; unfold rows in *; nia).
  assert (seqZ 0 rows = seqZ 0 k ++ seqZ (0 + k) (rows - k)) as ->.
  { rewrite <-seqZ_app by lia. f_equal. lia. }
  rewrite fmap_app, filter_app, filter_all, filter_none.
  - by rewrite app_nil_r.
  - apply Forall_fmap, Forall_seqZ. intros j Hj. simpl. nia.
  - apply Forall_fmap, Forall_seqZ. intros j Hj. simpl.
    destruct Hlast; nia.
Qed.
End invariants.

(** ** Executions in two parts *)

Lemma run_app work s1 s2 st :
  run work (s1 ++ s2) st
  = match run work s1 st with
    | Next st' => run work s2 st'
    | o => o
    end.
Proof.
  revert st. induction s1 as [|a s1 IH]; intros st; simpl; [done|].
  destruct (step work a st); [apply IH|done..].
Qed.

Lemma run_app_inv work s1 s2 st st2 :
  run work (s1 ++ s2) st = Next st2 →
  ∃ st1, run work s1 st = Next st1 ∧ run work s2 st1 = Next st2.
Proof.
  rewrite run_app. destruct (run work s1 st) as [st1| |] eqn:H1; [|done..].
  by exists st1.
Qed.

Lemma run_cons_inv work a s st st2 :
  run work (a :: s) st = Next st2 →
  ∃ st1, step work a st = Next st1 ∧ run work s st1 = Next st2.
Proof.
  simpl. destruct (step work a st) as [st1| |] eqn:H1; [|done..].
  by exists st1.
Qed.

(** The range of the total of a matrix of [rand()] values: the 64-bit
    accumulators do not wrap. *)
Lemma matrix_total_range work :
  rand_filled work → 0 ≤ matrix_total work < 2 ^ 64.
Proof.
  intros Hw. unfold matrix_total, rows_total.
  assert (Forall (λ v, 0 ≤ v ≤ cols * INT_MAX)
                 (row_total work <$> seqZ 0 rows)) as Hrows.
  { apply Forall_fmap, Forall_seqZ. intros row Hrow. simpl.
    unfold row_total.
    assert (Forall (λ v, 0 ≤ v ≤ INT_MAX) (work row <$> seqZ 0 cols)) as Hr.
    { apply Forall_fmap, Forall_seqZ. intros i Hi. simpl.
      apply Hw; lia. }
    apply Zsum_bounds in Hr. rewrite length_fmap, length_seqZ in Hr.
    unfold cols, INT_MAX in *. lia. }
  apply Zsum_bounds in Hrows. rewrite length_fmap, length_seqZ in Hrows.
  unfold rows, cols, INT_MAX in *. lia.
Qed.

(** [main] returns 0 if it returns: whatever the number of threads. *)
Lemma exit_code_step work a st st' code :
  (∀ c, exit_code st = Some c → c = 0) →
  step work a st = Next st' → exit_code st' = Some code → code = 0.
Proof.
  intros Hz H Hex. destruct a as [tid|]; simpl in H.
  - apply worker_step_frame in H as (_ & _ & _ & _ & Hm & _).
    unfold exit_code in *. rewrite Hm in Hex. by apply Hz.
  - unfold exit_code in *. step_inv H; simpl in *; by simplify_eq.
Qed.

Lemma exit_code_run work sched st st' code :
  (∀ c, exit_code st = Some c → c = 0) →
  run work sched st = Next st' → exit_code st' = Some code → code = 0.
Proof.
  revert st. induction sched as [|a sched IH]; intros st Hz H Hex.
  - simpl in H. simplify_eq. by apply Hz.
  - apply run_cons_inv in H as (st1 & Hstep & Hrun).
    eapply IH; [|done..]. intros c. by eapply exit_code_step.
Qed.

(** ** The critical section of [sum_dynamic] *)

Section critical_section.
Context (work : matrix) (N : Z).
Hypothesis HN : valid_threads N.

(** While thread [tid] is between [lock()] and [unlock()], the steps of the
    other threads leave the counter, the lock and the control point of [tid]
    as they are. *)
Lemma other_step_preserves tid p a st st' :
  inv work N true st → threads st !! tid = Some p → in_cs p = true →
  a ≠ Worker tid → step work a st = Next st' →
  threads st' !! tid = Some p ∧ counter st' = counter st ∧
  counter_lock st' = counter_lock st.
Proof.
  intros (Hacct & _ & Hdyn) Hp Hcs Ha H.
  pose proof (proj1 (dyn_lock _ Hdyn _ _ Hp) Hcs) as HL.
  destruct a as [t|]; simpl in H.
  - assert (t ≠ tid) as Hne by congruence.
    destruct (worker_step_other work _ _ _ _ H (not_eq_sym Hne)) as (-> & _).
    split; [done|].
    pose proof (worker_step_frame _ _ _ _ H) as ((q & _ & Hq & _) & _).
    pose proof (dyn_lock _ Hdyn _ _ Hq) as Hlq.
    pose proof (dyn_pc _ Hdyn _ _ Hq) as Hpq.
    assert (in_cs q = false) as Hncs.
    { destruct (in_cs q); [|done].
      assert (counter_lock st = Some t) by (by apply Hlq). congruence. }
    unfold step_worker in H. rewrite Hq in H.
    destruct q; try done; unfold sum_dynamic in H; rewrite ?HL in H;
      try done.
    unfold row_summed in H. repeat case_match; by simplify_eq.
  - apply main_step_frame in H as (-> & _ & _ & _ & _ & -> & ->). done.
Qed.

Lemma others_preserve tid p s st st' :
  inv work N true st → threads st !! tid = Some p → in_cs p = true →
  Forall (λ a, a ≠ Worker tid) s → run work s st = Next st' →
  inv work N true st' ∧ threads st' !! tid = Some p ∧
  counter st' = counter st ∧ counter_lock st' = counter_lock st.
Proof.
  intros Hinv Hp Hcs Hs. revert st Hinv Hp.
  induction Hs as [|a s Ha _ IH]; intros st Hinv Hp Hrun.
  - simpl in Hrun. by simplify_eq.
  - apply run_cons_inv in Hrun as (st1 & Hstep & Hrun).
    destruct (other_step_preserves _ _ _ _ _ Hinv Hp Hcs Ha Hstep)
      as (Hp1 & Hc1 & Hl1).
    destruct (IH st1 (inv_step _ _ HN _ _ _ _ Hinv Hstep) Hp1 Hrun)
      as (? & ? & ? & ?).
    split_and!; [done..|congruence|congruence].
Qed.

(** One step of [tid] inside its critical section, after any steps of the
    other threads. *)
Lemma cs_step tid p s rest st st3 :
  inv work N true st → threads st !! tid = Some p → in_cs p = true →
  Forall (λ a, a ≠ Worker tid) s →
  run work (s ++ Worker tid :: rest) st = Next st3 →
  ∃ st1 st2, threads st1 !! tid = Some p ∧
             counter st1 = counter st ∧ counter_lock st1 = Some tid ∧
             sum_dynamic work tid p st1 = Next st2 ∧
             inv work N true st2 ∧ run work rest st2 = Next st3.
Proof.
  intros Hinv Hp Hcs Hs Hrun.
  apply run_app_inv in Hrun as (st1 & Hrun1 & Hrun2).
  destruct (others_preserve _ _ _ _ _ Hinv Hp Hcs Hs Hrun1)
    as (Hinv1 & Hp1 & Hc1 & Hl1).
  apply run_cons_inv in Hrun2 as (st2 & Hstep & Hrest).
  exists st1, st2. split_and!; try done.
  - rewrite Hl1. destruct Hinv as (_ & _ & Hdyn).
    by apply (dyn_lock _ Hdyn _ _ Hp).
  - simpl in Hstep. unfold step_worker in Hstep. rewrite Hp1 in Hstep.
    by destruct p.
  - by eapply inv_step.
Qed.

Lemma lookup_own (T : list pc) tid p p' :
  T !! tid = Some p → <[tid := p']> T !! tid = Some p'.
Proof. intros Hp. apply list_lookup_insert_eq. by eapply lookup_lt_Some. Qed.

(** A whole claim with the counter above 0: [lock()], the test, the
    decrement, the copy and [unlock()], with steps of the other threads
    anywhere in between. *)
Lemma claim_positive tid s1 s2 s3 s4 st st' :
  inv work N true st → threads st !! tid = Some DLock →
  Forall (λ a, a ≠ Worker tid) s1 → Forall (λ a, a ≠ Worker tid) s2 →
  Forall (λ a, a ≠ Worker tid) s3 → Forall (λ a, a ≠ Worker tid) s4 →
  0 < counter st →
  run work (Worker tid :: s1 ++ Worker tid :: s2 ++ Worker tid :: s3
              ++ Worker tid :: s4 ++ [Worker tid]) st = Next st' →
  counter st' = counter st - 1 ∧ counter_lock st' = None ∧
  threads st' !! tid = Some (DWork (counter st - 1)).
Proof.
  intros Hinv Hp H1 H2 H3 H4 Hc Hrun.
  apply run_cons_inv in Hrun as (sa & Hstep & Hrun).
  pose proof (inv_step _ _ HN _ _ _ _ Hinv Hstep) as Hinva.
  simpl in Hstep. unfold step_worker in Hstep. rewrite Hp in Hstep.
  simpl in Hstep. destruct (counter_lock st); [done|]. simplify_eq.
  eapply cs_step in Hrun as (sb & sc & Hpb & Hcb & _ & Hstep & Hinvc & Hrun);
    [|done|by eapply lookup_own|done..].
  simpl in Hcb, Hstep. rewrite decide_True in Hstep by lia.
  unfold set_pc in Hstep. simplify_eq.
  eapply cs_step in Hrun as (sd & se & Hpd & Hcd & _ & Hstep & Hinve & Hrun);
    [|done|by eapply lookup_own|done..].
  simpl in Hcd, Hstep. case_decide; [|done]. simplify_eq.
  eapply cs_step in Hrun as (sf & sg & Hpf & Hcf & _ & Hstep & Hinvg & Hrun);
    [|done|by eapply lookup_own|done..].
  simpl in Hcf, Hstep. simplify_eq.
  eapply cs_step in Hrun as (sh & si & Hph & Hch & Hlh & Hstep & _ & Hrun);
    [|done|by eapply lookup_own|done..].
  simpl in Hch, Hstep, Hrun. rewrite decide_True in Hstep by done.
  simplify_eq. simpl. split_and!; [lia|done|].
  erewrite lookup_own by done. do 2 f_equal. lia.
Qed.

(** A claim that finds the counter at 0: the thread returns, and the counter
    is not decremented. *)
Lemma claim_zero tid s1 s2 s3 st st' :
  inv work N true st → threads st !! tid = Some DLock →
  Forall (λ a, a ≠ Worker tid) s1 → Forall (λ a, a ≠ Worker tid) s2 →
  Forall (λ a, a ≠ Worker tid) s3 →
  counter st = 0 →
  run work (Worker tid :: s1 ++ Worker tid :: s2 ++ Worker tid :: s3
              ++ [Worker tid]) st = Next st' →
  counter st' = 0 ∧ counter_lock st' = None ∧
  threads st' !! tid = Some Finished.
Proof.
  intros Hinv Hp H1 H2 H3 Hc Hrun.
  apply run_cons_inv in Hrun as (sa & Hstep & Hrun).
  pose proof (inv_step _ _ HN _ _ _ _ Hinv Hstep) as Hinva.
  simpl in Hstep. unfold step_worker in Hstep. rewrite Hp in Hstep.
  simpl in Hstep. destruct (counter_lock st); [done|]. simplify_eq.
  eapply cs_step in Hrun as (sb & sc & Hpb & Hcb & _ & Hstep & Hinvc & Hrun);
    [|done|by eapply lookup_own|done..].
  simpl in Hcb, Hstep. rewrite decide_False in Hstep by lia.
  unfold set_pc in Hstep. simplify_eq.
  eapply cs_step in Hrun as (sd & se & Hpd & Hcd & _ & Hstep & Hinve & Hrun);
    [|done|by eapply lookup_own|done..].
  simpl in Hcd, Hstep. simplify_eq.
  eapply cs_step in Hrun as (sf & sg & Hpf & Hcf & Hlf & Hstep & _ & Hrun);
    [|done|by eapply lookup_own|done..].
  simpl in Hcf, Hstep, Hrun. rewrite decide_True in Hstep by done.
  simplify_eq. simpl. split_and!; [lia|done|].
  by erewrite lookup_own.
Qed.
End critical_section.

(** ** A bound on the length of the executions *)

Definition max_steps (N : Z) : nat :=
  Z.to_nat (6 * rows + (rows + 2) * N + 1).

Lemma sum_list_with_bound {A} (w : A → nat) (b : nat) (l : list A) :
  Forall (λ x, (w x ≤ b)%nat) l → (sum_list_with w l ≤ length l * b)%nat.
Proof. induction 1 as [|x l Hx _ IH]; simpl; lia. Qed.

Lemma measure_init dFlag N :
  valid_threads N → (measure (init dFlag N) ≤ max_steps N)%nat.
Proof.
  intros [HN1 HN2]. unfold measure, max_steps, init.
  cbn [counter threads main_at main_weight].
  assert (sum_list_with weight
            (if dFlag then replicate (Z.to_nat N) DLock
             else (λ i : nat, SLoop (to_int N) (to_int (Z.of_nat i)))
                    <$> seq 0 (Z.to_nat N))
          ≤ Z.to_nat N * Z.to_nat (rows + 1))%nat as Hsum.
  { etrans; [apply (sum_list_with_bound _ (Z.to_nat (rows + 1)))|].
    - destruct dFlag.
      + apply Forall_replicate. cbn [weight]. unfold rows. lia.
      + apply Forall_fmap, Forall_forall. intros i Hi%elem_of_seq.
        cbn [weight compose].
        rewrite to_int_small
          by (unfold in_int, INT_MIN, INT_MAX, rows in *; lia).
        unfold rows. lia.
    - destruct dFlag; rewrite ?length_replicate, ?length_fmap, ?length_seq;
        done. }
  unfold rows in *. nia.
Qed.

(** ** [sum_static] with [num_threads = 0] *)

(** The worker stays at the same row for ever. *)
Lemma static_zero_stuck work tid row sched st st' :
  threads st !! tid = Some (SLoop 0 row) → row < 1000 →
  run work sched st = Next st' →
  threads st' !! tid = Some (SLoop 0 row).
Proof.
  intros Hp Hrow. revert st Hp.
  induction sched as [|a sched IH]; intros st Hp Hrun.
  - simpl in Hrun. by simplify_eq.
  - apply run_cons_inv in Hrun as (st1 & Hstep & Hrun).
    apply (IH st1); [|done]. destruct a as [t|]; simpl in Hstep.
    + destruct (decide (t = tid)) as [->|Hne].
      * unfold step_worker in Hstep. rewrite Hp in Hstep.
        unfold sum_static in Hstep. rewrite decide_False in Hstep by lia.
        repeat case_match; simplify_eq. simpl.
        rewrite Z.add_0_r. apply list_lookup_insert_eq.
        by eapply lookup_lt_Some.
      * destruct (worker_step_other work _ _ _ tid Hstep) as (-> & _);
          [congruence|done].
    + apply main_step_frame in Hstep as (-> & _). done.
Qed.

(** One iteration of the loop at a row of the matrix. *)
Lemma sum_static_row work tid num_threads row st tc s :
  0 ≤ row < 1000 → tcount st !! tid = Some tc → sum st !! tid = Some s →
  0 ≤ s < 2 ^ 64 →
  sum_static work tid num_threads row st
  = if decide (in_int (row + num_threads) ∧ in_int (tc + 1)) then
      Next (row_summed tid row (to_uint64 (s + row_total work row)) (tc + 1)
                       (SLoop num_threads (row + num_threads)) st)
    else Fault.
Proof.
  intros Hrow Htc Hs Hsr. unfold sum_static.
  rewrite decide_False by lia. rewrite Hs, Htc.
  change (add_row work 100) with (add_row work cols).
  by rewrite add_row_Some by (done || (unfold rows; lia)).
Qed.

(** Left alone, it increments [tcount[tid]] until the [int] overflows. *)
Lemma static_zero_overflow work tid row (k : nat) st tc s :
  threads st !! tid = Some (SLoop 0 row) → 0 ≤ row < 1000 →
  tcount st !! tid = Some tc → sum st !! tid = Some s → 0 ≤ s < 2 ^ 64 →
  0 ≤ tc → tc = INT_MAX - Z.of_nat k →
  run work (replicate (S k) (Worker tid)) st = Fault.
Proof.
  intros Hp Hrow. revert st tc s Hp.
  induction k as [|k IH]; intros st tc s Hp Htc Hs Hsr Htc0 Hk;
    change (run work (replicate (S ?n) (Worker tid)) st)
      with (match step_worker work tid st with
            | Next st' => run work (replicate n (Worker tid)) st'
            | o => o
            end);
    unfold step_worker; rewrite Hp;
    rewrite (sum_static_row _ _ _ _ _ _ _ Hrow Htc Hs Hsr).
  - rewrite decide_False; [done|].
    unfold in_int, INT_MIN, INT_MAX in *. lia.
  - rewrite decide_True by (unfold in_int, INT_MIN, INT_MAX in *; lia).
    apply (IH _ (tc + 1) (to_uint64 (s + row_total work row))).
    + unfold row_summed. cbn [threads]. rewrite Z.add_0_r.
      apply list_lookup_insert_eq. by eapply lookup_lt_Some.
    + unfold row_summed. cbn [tcount].
      apply list_lookup_insert_eq. by eapply lookup_lt_Some.
    + unfold row_summed. cbn [sum].
      apply list_lookup_insert_eq. by eapply lookup_lt_Some.
    + apply to_uint64_range.
    + lia.
    + lia.
Qed.

(** ** The options *)

Lemma options_other maxThreads opts dFlag limiter :
  Opt_other ∈ opts → options maxThreads opts dFlag limiter = None.
Proof.
  revert dFlag limiter. induction opts as [|o opts IH]; intros d l Hin.
  - by apply elem_of_nil in Hin.
  - apply elem_of_cons in Hin as [<-|Hin]; [done|].
    destruct o; simpl; auto.
Qed.

Lemma options_no_other maxThreads opts dFlag limiter :
  Opt_other ∉ opts →
  ∃ dFlag' limiter', options maxThreads opts dFlag limiter
                     = Some (dFlag', limiter').
Proof.
  revert dFlag limiter. induction opts as [|o opts IH]; intros d l Hin.
  - by exists d, l.
  - apply not_elem_of_cons in Hin as [Hne Hin].
    destruct o; simpl; [by apply IH..|done].
Qed.

(** Without [-t] the thread count keeps its value. *)
Lemma options_only_d maxThreads opts dFlag limiter :
  Forall (λ o, o = Opt_d) opts →
  ∃ dFlag', options maxThreads opts dFlag limiter = Some (dFlag', limiter).
Proof.
  intros Hd. revert dFlag. induction Hd as [|o opts -> _ IH]; intros d.
  - by exists d.
  - simpl. apply IH.
Qed.

(** The last [-t] decides. *)
Lemma options_last_t maxThreads pre value post dFlag limiter :
  Opt_other ∉ pre → Forall (λ o, o = Opt_d) post →
  ∃ dFlag', options maxThreads (pre ++ Opt_t value :: post) dFlag limiter
            = Some (dFlag', set_limiter maxThreads value).
Proof.
  intros Hpre Hpost. revert dFlag limiter.
  induction pre as [|o pre IH]; intros d l; simpl.
  - by apply options_only_d.
  - apply not_elem_of_cons in Hpre as [Hne Hpre].
    destruct o; [by apply IH..|done].
Qed.

Lemma set_limiter_range maxThreads value :
  2 ≤ maxThreads → 2 ≤ set_limiter maxThreads value ≤ maxThreads.
Proof. intros. unfold set_limiter. repeat case_decide; lia. Qed.

(** * Further invariants *)

(** ** The shared counter *)

(** No step increases the counter. *)
Lemma counter_step work a st st' :
  step work a st = Next st' → counter st' ≤ counter st.
Proof.
  intros H. destruct a as [tid|]; simpl in H.
  - unfold step_worker, sum_static, sum_dynamic, set_pc, row_summed in H.
    repeat case_match; simplify_eq; simpl; lia.
  - apply main_step_frame in H as (_ & _ & _ & _ & _ & -> & _). lia.
Qed.

Lemma counter_run work sched st st' :
  run work sched st = Next st' → counter st' ≤ counter st.
Proof.
  revert st. induction sched as [|a sched IH]; intros st H.
  - simpl in H. simplify_eq. lia.
  - apply run_cons_inv in H as (st1 & Hstep & Hrun).
    apply counter_step in Hstep. apply IH in Hrun. lia.
Qed.

(** The static strategy leaves the counter, its lock and the log of the
    claims alone. *)
Lemma static_shared_step work N a st st' :
  static_inv N st → acct work N st → step work a st = Next st' →
  counter st' = counter st ∧ counter_lock st' = counter_lock st ∧
  claims st' = claims st.
Proof.
  intros Hstat Hacct H. destruct a as [tid|]; simpl in H.
  - pose proof (worker_step_frame _ _ _ _ H) as ((p & _ & Hp & Hnf & _) & _).
    destruct (acct_lookups _ _ _ _ _ Hacct Hp) as (l & Hl & _).
    destruct (Hstat _ _ _ Hp Hl) as (k & _ & _ & _ & [->|[-> _]]); [|done].
    unfold step_worker in H. rewrite Hp in H.
    unfold sum_static, set_pc, row_summed in H.
    repeat case_match; by simplify_eq.
  - apply main_step_frame in H as (_ & _ & _ & _ & -> & -> & ->). done.
Qed.

Lemma static_shared work N sched st :
  valid_threads N → run work sched (init false N) = Next st →
  counter st = rows ∧ counter_lock st = None ∧ claims st = [].
Proof.
  intros HN.
  assert (∀ st0, inv work N false st0 →
                 counter st0 = rows ∧ counter_lock st0 = None ∧
                 claims st0 = [] →
                 run work sched st0 = Next st →
                 counter st = rows ∧ counter_lock st = None ∧
                 claims st = []) as Hgen.
  { induction sched as [|a sched IH]; intros st0 Hinv H0 Hrun.
    - simpl in Hrun. by simplify_eq.
    - apply run_cons_inv in Hrun as (st1 & Hstep & Hrun).
      apply (IH st1); [by eapply inv_step| |done].
      destruct Hinv as (Hacct & _ & Hstat).
      destruct (static_shared_step _ _ _ _ _ Hstat Hacct Hstep)
        as (-> & -> & ->).
      done. }
  apply Hgen; [by apply inv_init|done].
Qed.

(** ** The order of the rows of a dynamic worker *)

(** The rows that a worker has summed, followed by the row it has claimed and
    not summed yet, appear in this order among the claims. *)
Definition claim_order (st : state) : Prop :=
  ∀ tid p l,
    threads st !! tid = Some p → handled st !! tid = Some l →
    (l ++ option_list (pending p)) `sublist_of` claims st.

Lemma claim_order_step work N a st st' :
  acct work N st → dynamic_inv st → claim_order st →
  step work a st = Next st' → claim_order st'.
Proof.
  intros Hacct Hdyn Hord H tid p l Hp Hl. destruct a as [t|]; simpl in H.
  2:{ apply main_step_frame in H as (HT & _ & _ & HH & HC & _).
      rewrite HT in Hp. rewrite HH in Hl. rewrite HC. by eapply Hord. }
  assert (claims st `sublist_of` claims st') as Hext.
  { unfold step_worker, sum_static, sum_dynamic, set_pc, row_summed in H.
    repeat case_match; simplify_eq; simpl; try done.
    by apply sublist_inserts_r. }
  destruct (decide (tid = t)) as [->|Hne].
  2:{ destruct (worker_step_other work _ _ _ tid H Hne) as (Hp' & Hl' & _).
      rewrite Hp' in Hp. rewrite Hl' in Hl.
      etrans; [by eapply Hord|done]. }
  pose proof (worker_step_frame _ _ _ _ H) as ((q & _ & Hq & _) & _).
  destruct (acct_lookups _ _ _ _ _ Hacct Hq) as (l0 & Hl0 & _).
  pose proof (Hord _ _ _ Hq Hl0) as Hsub.
  pose proof (dyn_pc _ Hdyn _ _ Hq) as Hpc.
  assert (t < length (threads st))%nat as Hlt by (by eapply lookup_lt_Some).
  unfold step_worker in H. rewrite Hq in H.
  destruct q as [| | | |dn|dn c|c|]; try done;
    unfold sum_dynamic, set_pc, row_summed in H;
    repeat case_match; simplify_eq; simpl in *;
    rewrite list_lookup_insert_eq in Hp by done; simplify_eq; simpl;
    rewrite ?Hl0 in Hl; simplify_eq; try done.
  - rewrite app_nil_r in Hsub. by apply sublist_app.
  - rewrite list_lookup_alter_eq, Hl0 in Hl. simplify_eq/=.
    by rewrite app_nil_r.
Qed.

Lemma claim_order_run work N sched st :
  valid_threads N → run work sched (init true N) = Next st → claim_order st.
Proof.
  intros HN.
  assert (∀ st0, inv work N true st0 → claim_order st0 →
                 run work sched st0 = Next st → claim_order st) as Hgen.
  { induction sched as [|a sched IH]; intros st0 Hinv H0 Hrun.
    - simpl in Hrun. by simplify_eq.
    - apply run_cons_inv in Hrun as (st1 & Hstep & Hrun).
      apply (IH st1); [by eapply inv_step| |done].
      destruct Hinv as (Hacct & _ & Hdyn). by eapply claim_order_step. }
  apply Hgen; [by apply inv_init|].
  intros tid p l. unfold init. simpl.
  intros [-> _]%lookup_replicate [-> _]%lookup_replicate. done.
Qed.

Lemma down_to_prefix c : 0 ≤ c ≤ rows → down_to c `sublist_of` down_to 0.
Proof.
  intros Hc. unfold down_to.
  assert (seqZ 0 (rows - 0) = seqZ 0 c ++ seqZ (0 + c) (rows - c)) as ->.
  { rewrite <-seqZ_app by lia. f_equal. lia. }
  rewrite reverse_app. apply sublist_inserts_r. by rewrite Z.add_0_l.
Qed.

Lemma sublist_same_length {A} (l1 l2 : list A) :
  l1 `sublist_of` l2 → length l1 = length l2 → l1 = l2.
Proof.
  induction 1 as [|x l1 l2 Hsub IH|x l1 l2 Hsub IH]; intros Hlen;
    simpl in Hlen.
  - done.
  - f_equal. apply IH. lia.
  - apply sublist_length in Hsub. lia.
Qed.

(** A subsequence of [rows - 1, ..., 0] decreases strictly. *)
Lemma sublist_down_to_decreasing (l : list Z) i j a b :
  l `sublist_of` down_to 0 → (i < j)%nat →
  l !! i = Some a → l !! j = Some b → b < a.
Proof.
  unfold down_to. generalize (rows - 0). intros len.
  destruct (decide (0 ≤ len)) as [Hlen|Hlen].
  2:{ rewrite seqZ_nil by lia. intros ->%sublist_nil_r. done. }
  rewrite <-(Z2Nat.id len) by done. generalize (Z.to_nat len). clear.
  intros m. revert l i j a b. induction m as [|m IH]; intros l i j a b.
  { intros ->%sublist_nil_r. done. }
  rewrite seqZ_S, reverse_snoc. simpl. intros Hsub Hij Ha Hb.
  apply sublist_cons_r in Hsub as [Hsub|(l' & -> & Hsub)].
  - by eapply IH.
  - destruct i as [|i], j as [|j]; simplify_eq/=; try lia.
    + apply list_elem_of_lookup_2, (sublist_subseteq _ _ Hsub) in Hb.
      apply elem_of_reverse, elem_of_seqZ in Hb. lia.
    + eapply (IH l' i j); eauto. lia.
Qed.

(** * The population of the matrix (lines 200-206) *)

(** [work[row][i] = v]. *)
Definition store (work : matrix) (row i v : Z) : matrix :=
  λ r c, if decide (r = row ∧ c = i) then v else work r c.

(** [rand k] is what the [k]-th call of [rand()] returns after
    [srand(0x1234)].  The inner loop, [for (j = 0; j < cols; j++)
    work[row][j] = rand()], on the matrix and the number of calls made so
    far. *)
Definition fill_row (rand : nat → Z) (row : Z) (wk : matrix * nat)
    : matrix * nat :=
  foldl (λ (wk : matrix * nat) (j : Z),
           (store (fst wk) row j (rand (snd wk)), S (snd wk)))
        wk (seqZ 0 cols).

(** The two loops, from the zero-initialized global array. *)
Definition fill_work (rand : nat → Z) : matrix * nat :=
  foldl (λ (wk : matrix * nat) (row : Z), fill_row rand row wk)
        (λ _ _, 0, 0%nat) (seqZ 0 rows).

Lemma fill_cols rand row (m : nat) (wk : matrix * nat) :
  let res := foldl (λ (wk : matrix * nat) (j : Z),
                      (store (fst wk) row j (rand (snd wk)), S (snd wk)))
                   wk (seqZ 0 (Z.of_nat m)) in
  snd res = (snd wk + m)%nat ∧
  ∀ r c, fst res r c
         = if decide (r = row ∧ 0 ≤ c < Z.of_nat m)
           then rand (snd wk + Z.to_nat c)%nat else fst wk r c.
Proof.
  induction m as [|m IH].
  - cbv zeta. cbn [seqZ foldl]. simpl. split; [lia|]. intros r c.
    by rewrite decide_False by lia.
  - rewrite seqZ_S, foldl_app. cbv zeta in *. destruct IH as [IHk IHw].
    cbn [foldl fst snd]. rewrite IHk. split; [lia|]. intros r c.
    unfold store. rewrite IHw.
    repeat case_decide; try lia; try done. f_equal. lia.
Qed.

Lemma fill_row_spec rand row wk :
  snd (fill_row rand row wk) = (snd wk + Z.to_nat cols)%nat ∧
  ∀ r c, fst (fill_row rand row wk) r c
         = if decide (r = row ∧ 0 ≤ c < cols)
           then rand (snd wk + Z.to_nat c)%nat else fst wk r c.
Proof.
  pose proof (fill_cols rand row (Z.to_nat cols) wk) as H.
  rewrite Z2Nat.id in H by (unfold cols; lia). exact H.
Qed.

Lemma fill_rows rand (m : nat) :
  let res := foldl (λ (wk : matrix * nat) (row : Z), fill_row rand row wk)
                   (λ _ _, 0, 0%nat) (seqZ 0 (Z.of_nat m)) in
  snd res = (m * Z.to_nat cols)%nat ∧
  ∀ r c, fst res r c
         = if decide (0 ≤ r < Z.of_nat m ∧ 0 ≤ c < cols)
           then rand (Z.to_nat (r * cols + c)) else 0.
Proof.
  induction m as [|m IH].
  - simpl. split; [done|]. intros r c. by rewrite decide_False by lia.
  - rewrite seqZ_S, foldl_app. cbv zeta in *. destruct IH as [IHk IHw].
    cbn [foldl].
    destruct (fill_row_spec rand (0 + Z.of_nat m)
                (foldl (λ wk row, fill_row rand row wk) (λ _ _, 0, 0%nat)
                       (seqZ 0 (Z.of_nat m)))) as [Hk Hw].
    rewrite Hk, IHk. split; [lia|]. intros r c. rewrite Hw, IHk, IHw.
    unfold cols in *. repeat case_decide; try lia; try done.
    f_equal. lia.
Qed.

Lemma fill_work_spec rand :
  snd (fill_work rand) = Z.to_nat (rows * cols) ∧
  ∀ r c, fst (fill_work rand) r c
         = if decide (0 ≤ r < rows ∧ 0 ≤ c < cols)
           then rand (Z.to_nat (r * cols + c)) else 0.
Proof.
  pose proof (fill_rows rand (Z.to_nat rows)) as H.
  rewrite Z2Nat.id in H by (unfold rows; lia). cbv zeta in H.
  destruct H as [Hk Hw]. split; [|exact Hw].
  unfold fill_work. rewrite Hk. unfold rows, cols. lia.
Qed.

(** The sum of a row of values that come from consecutive calls. *)
Lemma Zsum_seqZ_shift (f : Z → Z) (g : nat → Z) (k m : nat) :
  (∀ c, 0 ≤ c < Z.of_nat m → f c = g (k + Z.to_nat c)%nat) →
  Zsum (f <$> seqZ 0 (Z.of_nat m)) = Zsum (g <$> seq k m).
Proof.
  revert k. induction m as [|m IH]; intros k Hf; [done|].
  rewrite seqZ_S, fmap_app, Zsum_app, seq_S, fmap_app, Zsum_app.
  rewrite (IH k) by (intros c Hc; apply Hf; lia).
  unfold Zsum. simpl. rewrite Hf by lia. do 3 f_equal. lia.
Qed.

Lemma Zsum_blocks (g : nat → Z) (C m : nat) :
  Zsum ((λ r, Zsum (g <$> seq (Z.to_nat r * C) C)) <$> seqZ 0 (Z.of_nat m))
  = Zsum (g <$> seq 0 (m * C)).
Proof.
  induction m as [|m IH]; [done|].
  rewrite seqZ_S, fmap_app, Zsum_app, IH.
  assert (seq 0 (S m * C) = seq 0 (m * C) ++ seq (0 + m * C) C) as ->
    by (rewrite <-seq_app; f_equal; lia).
  rewrite fmap_app, Zsum_app. f_equal.
  change (Zsum (g <$> seq (Z.to_nat (0 + Z.of_nat m) * C) C) + 0
          = Zsum (g <$> seq (0 + m * C) C)).
  replace (Z.to_nat (0 + Z.of_nat m)) with m by lia. simpl plus. lia.
Qed.

(** The total of the populated matrix is the sum of what the first
    [rows * cols] calls of [rand()] returned. *)
Lemma fill_work_total rand :
  matrix_total (fst (fill_work rand))
  = Zsum (rand <$> seq 0 (Z.to_nat (rows * cols))).
Proof.
  destruct (fill_work_spec rand) as [_ Hw].
  unfold matrix_total, rows_total.
  rewrite <-(Z2Nat.id rows) at 1 by (unfold rows; lia).
  replace (Z.to_nat (rows * cols))
    with (Z.to_nat rows * Z.to_nat cols)%nat by (unfold rows, cols; lia).
  rewrite <-(Zsum_blocks rand (Z.to_nat cols) (Z.to_nat rows)).
  apply (f_equal Zsum), list_fmap_ext. intros i r Hr%lookup_seqZ.
  unfold row_total. rewrite <-(Z2Nat.id cols) at 1 by (unfold cols; lia).
  apply Zsum_seqZ_shift. intros c Hc. rewrite Hw.
  rewrite Z2Nat.id in Hr by (unfold rows; lia).
  assert (0 ≤ c < cols) as Hc' by (unfold cols in *; lia).
  rewrite decide_True by lia.
  apply (f_equal rand). unfold cols. lia.
Qed.

Lemma fill_work_rand_filled rand :
  (∀ k, 0 ≤ rand k ≤ INT_MAX) → rand_filled (fst (fill_work rand)).
Proof.
  intros Hr row i Hrow Hi. destruct (fill_work_spec rand) as [_ ->].
  by rewrite decide_True.
Qed.

(** * Further facts on the options and on the results *)

Global Instance getopt_result_eq_dec : EqDecision getopt_result.
Proof. solve_decision. Defined.

(** [dFlag] is set by the first [-d] and never reset. *)
Lemma options_dflag maxThreads opts dFlag limiter dFlag' limiter' :
  options maxThreads opts dFlag limiter = Some (dFlag', limiter') →
  dFlag' = dFlag || bool_decide (Opt_d ∈ opts).
Proof.
  revert dFlag limiter. induction opts as [|o opts IH]; intros d l H.
  - simpl in H. simplify_eq. rewrite bool_decide_eq_false_2.
    + by rewrite orb_false_r.
    + apply not_elem_of_nil.
  - destruct o; simpl in H; [| |done].
    + apply IH in H. rewrite H.
      rewrite (bool_decide_eq_true_2 (Opt_d ∈ Opt_d :: opts));
        [by rewrite orb_true_r|]. apply elem_of_cons. by left.
    + apply IH in H. rewrite H. f_equal. apply bool_decide_ext.
      rewrite elem_of_cons. split; [by right|]. by intros [?|?].
Qed.

(** With a hardware concurrency of at least 2 the thread count stays in
    [2, maxThreads]. *)
Lemma options_range maxThreads opts dFlag limiter dFlag' limiter' :
  2 ≤ maxThreads → 2 ≤ limiter ≤ maxThreads →
  options maxThreads opts dFlag limiter = Some (dFlag', limiter') →
  2 ≤ limiter' ≤ maxThreads.
Proof.
  intros Hhw. revert dFlag limiter.
  induction opts as [|o opts IH]; intros d l Hl H.
  - simpl in H. by simplify_eq.
  - destruct o; simpl in H; [by eapply IH| |done].
    eapply IH; [|done]. by apply set_limiter_range.
Qed.

(** Without threads [main] has nothing to join and nothing to add. *)
Lemma no_threads_run work sched st0 st :
  threads st0 = [] → total_work st0 = 0 → gross_sum st0 = 0 →
  main_at st0 = MJoin 0 0 ∨ main_at st0 = MExit 0 →
  run work sched st0 = Next st →
  threads st = [] ∧ total_work st = 0 ∧ gross_sum st = 0 ∧
  (main_at st = MJoin 0 0 ∨ main_at st = MExit 0).
Proof.
  revert st0. induction sched as [|a sched IH]; intros st0 HT Htw Hgs Hm Hrun.
  - simpl in Hrun. by simplify_eq.
  - apply run_cons_inv in Hrun as (st1 & Hstep & Hrun).
    apply (IH st1); try done; destruct a as [tid|]; simpl in Hstep.
    all: try (unfold step_worker in Hstep; by rewrite HT in Hstep).
    all: unfold step_main in Hstep; destruct Hm as [Hm|Hm];
      rewrite Hm in Hstep; try done;
      rewrite decide_False in Hstep by lia; simplify_eq; simpl; auto.
Qed.

(** The rows in the log of a worker are rows of the matrix. *)
Lemma handled_rows_range work N dFlag st tid l :
  valid_threads N → inv work N dFlag st → handled st !! tid = Some l →
  Forall (λ r, 0 ≤ r < rows) l.
Proof.
  intros HN (Hacct & _ & Hstrat) Hl. apply Forall_forall. intros r Hr.
  assert (r ∈ mjoin (handled st)) as Hin.
  { apply list_elem_of_join. exists l. split; [done|].
    by eapply list_elem_of_lookup_2. }
  destruct dFlag.
  - destruct Hstrat as [Hc _ _ _ Hcl Hcov].
    assert (r ∈ claims st) as Hin'.
    { rewrite <-Hcov. apply elem_of_app. by left. }
    rewrite Hcl in Hin'. apply elem_of_down_to in Hin'.
    pose proof (uncopied_range st). lia.
  - by eapply static_in_range.
Qed.

(** The total of at most [rows] rows of [rand()] values fits 64 bits. *)
Lemma rows_total_range work (l : list Z) :
  rand_filled work → Forall (λ r, 0 ≤ r < rows) l →
  (length l ≤ Z.to_nat rows)%nat →
  0 ≤ rows_total work l < 2 ^ 64.
Proof.
  intros Hw Hl Hlen. unfold rows_total.
  assert (Forall (λ v, 0 ≤ v ≤ cols * INT_MAX) (row_total work <$> l)) as Hr.
  { apply Forall_fmap. eapply Forall_impl; [exact Hl|].
    intros row Hrow. simpl in *. unfold row_total.
    assert (Forall (λ v, 0 ≤ v ≤ INT_MAX) (work row <$> seqZ 0 cols)) as Hc.
    { apply Forall_fmap, Forall_seqZ. intros i Hi. simpl. apply Hw; lia. }
    apply Zsum_bounds in Hc. rewrite length_fmap, length_seqZ in Hc.
    unfold cols, INT_MAX in *. lia. }
  apply Zsum_bounds in Hr. rewrite length_fmap in Hr.
  unfold rows, cols, INT_MAX in *. nia.
Qed.

(** The totals depend on the entries inside the array only. *)
Lemma matrix_total_ext (w1 w2 : matrix) :
  (∀ row i, 0 ≤ row < rows → 0 ≤ i < cols → w1 row i = w2 row i) →
  matrix_total w1 = matrix_total w2.
Proof.
  intros H. unfold matrix_total, rows_total. apply (f_equal Zsum).
  apply list_fmap_ext. intros k row Hrow%lookup_seqZ.
  unfold row_total. apply (f_equal Zsum).
  apply list_fmap_ext. intros k' i Hi%lookup_seqZ. apply H; lia.
Qed.

Lemma rand_filled_ext (w1 w2 : matrix) :
  (∀ row i, 0 ≤ row < rows → 0 ≤ i < cols → w1 row i = w2 row i) →
  rand_filled w2 → rand_filled w1.
Proof. intros H Hw row i Hrow Hi. rewrite H by done. by apply Hw. Qed.

(** The number of rows of a static worker that has returned. *)
Lemma static_count work N st tid :
  valid_threads N → inv work N false st →
  threads st !! tid = Some Finished →
  tcount st !! tid = Some ((rows - Z.of_nat tid + N - 1) / N).
Proof.
  intros HN (Hacct & _ & Hstat) Hp.
  destruct (acct_lookups _ _ _ _ _ Hacct Hp) as (l & Hl & -> & _).
  destruct (Hstat _ _ _ Hp Hl) as (k & Hk & -> & Hlast & [?|[_ Hend]]);
    [done|].
  assert (Z.of_nat tid < N) as Htid.
  { apply lookup_lt_Some in Hp. rewrite (acct_threads _ _ _ Hacct) in Hp.
    lia. }
  destruct HN as [HN1 _]. f_equal. unfold lenZ, stride.
  rewrite length_fmap, length_seqZ, Z2Nat.id by done.
  apply (Z.div_unique_pos _ _ _ (rows - Z.of_nat tid + N - 1 - N * k)); [|lia].
  unfold rows in *. destruct Hlast; nia.
Qed.

(** When the workers of a dynamic execution have returned the counter is 0
    and the lock is free. *)
Lemma final_counter work N st :
  valid_threads N → inv work N true st → all_done st = true →
  counter st = 0 ∧ counter_lock st = None.
Proof.
  intros HN (Hacct & _ & Hdyn) Hdone. split.
  - destruct (lookup_lt_is_Some_2 (threads st) 0) as [p Hp].
    { rewrite (acct_threads _ _ _ Hacct). destruct HN. lia. }
    pose proof (dyn_pc _ Hdyn _ _ Hp) as Hpc.
    by rewrite (all_done_lookup _ _ _ Hdone Hp) in Hpc.
  - destruct (counter_lock st) as [t|] eqn:HL; [|done].
    destruct (dyn_owner _ Hdyn _ HL) as [p Hp].
    pose proof (proj2 (dyn_lock _ Hdyn _ _ Hp) HL) as Hcs.
    by rewrite (all_done_lookup _ _ _ Hdone Hp) in Hcs.
Qed.

(** The claims made so far are at most [rows]. *)
Lemma claimed_bound st :
  dynamic_inv st → 0 ≤ counter st + uncopied st ≤ rows.
Proof.
  intros Hdyn. pose proof (dyn_counter _ Hdyn) as Hc.
  pose proof (uncopied_range st) as Hu. split; [lia|].
  unfold uncopied, uncopied_of in *.
  destruct (counter_lock st) as [t|]; [|lia].
  destruct (threads st !! t) as [q|] eqn:Hq; [|lia].
  pose proof (dyn_pc _ Hdyn _ _ Hq) as Hpc.
  destruct q as [| | | |[]| | |]; simpl in Hpc; lia.
Qed.

Lemma singleton_lookup {A} (L : list A) x :
  length L = 1%nat → L !! 0%nat = Some x → L = [x].
Proof. destruct L as [|y [|? ?]]; intros; by simplify_eq/=. Qed.

(** A prefix of [rows - 1, ..., lo] is determined by its length. *)
Lemma down_to_app_inv (l pend : list Z) lo :
  0 ≤ lo ≤ rows → (length pend ≤ 1)%nat → l ++ pend = down_to lo →
  l = down_to (rows - lenZ l).
Proof.
  intros Hlo Hp Heq.
  assert (length l + length pend = Z.to_nat (rows - lo))%nat as Hlen.
  { rewrite <-length_app, Heq. unfold down_to.
    by rewrite length_reverse, length_seqZ. }
  destruct pend as [|c [|? ?]]; simpl in *; [| |lia].
  - rewrite app_nil_r in Heq. rewrite Heq at 1. f_equal. unfold lenZ. lia.
  - assert (lo < rows) as Hlt by lia.
    rewrite <-(down_to_snoc lo) in Heq by lia.
    apply app_inj_tail in Heq as [-> _]. f_equal.
    unfold lenZ, down_to. rewrite length_reverse, length_seqZ. lia.
Qed.

(** The steps of thread [tid] from [lock()] to [unlock()]: five steps when
    it finds the counter [c] above 0 (lock, test, decrement, copy, unlock),
    four otherwise (lock, test, copy, unlock), with the steps [s1], ..., [s4]
    of the other threads in between. *)
Definition critical_section (tid : nat) (c : Z) (s1 s2 s3 s4 : list actor)
    : list actor :=
  if decide (0 < c) then
    Worker tid :: s1 ++ Worker tid :: s2 ++ Worker tid :: s3
      ++ Worker tid :: s4 ++ [Worker tid]
  else
    Worker tid :: s1 ++ Worker tid :: s2 ++ Worker tid :: s3 ++ [Worker tid].


(** [after_step work tid s st Q]: thread [tid] is able to step in [st], and
    [Q] holds of every state that the steps [s] of the other threads lead to
    from the state that its step gives. *)
Definition after_step (work : matrix) (tid : nat) (s : list actor)
    (st : state) (Q : state → Prop) : Prop :=
  ∃ st1, step work (Worker tid) st = Next st1 ∧
         ∀ st2, run work s st1 = Next st2 → Q st2.

(** ** The steps of a claim, one by one *)

(** The steps of the other threads leave the control point and the rows of
    thread [tid] as they are. *)
Lemma others_keep work tid s st st' :
  Forall (λ a, a ≠ Worker tid) s → run work s st = Next st' →
  threads st' !! tid = threads st !! tid ∧
  handled st' !! tid = handled st !! tid.
Proof.
  intros Hs. revert st. induction Hs as [|a s Ha _ IH]; intros st Hrun.
  - simpl in Hrun. by simplify_eq.
  - apply run_cons_inv in Hrun as (st1 & Hstep & Hrun).
    destruct (IH _ Hrun) as [-> ->].
    destruct a as [t|]; simpl in Hstep.
    + assert (tid ≠ t) as Hne by congruence.
      by destruct (worker_step_other work _ _ _ _ Hstep Hne) as (-> & -> & _).
    + by apply main_step_frame in Hstep as (-> & _ & _ & -> & _).
Qed.

(** A step of [tid] that leaves it inside the critical section, then steps
    of the other threads. *)
Lemma after_step_cs work N tid p' s st st1 (Q : state → Prop) :
  valid_threads N → inv work N true st →
  step work (Worker tid) st = Next st1 →
  threads st1 !! tid = Some p' → in_cs p' = true →
  Forall (λ a, a ≠ Worker tid) s →
  (∀ st2, inv work N true st2 → threads st2 !! tid = Some p' →
          counter st2 = counter st1 → counter_lock st2 = counter_lock st1 →
          Q st2) →
  after_step work tid s st Q.
Proof.
  intros HN Hinv Hstep Hp Hcs Hs HQ. exists st1. split; [done|].
  intros st2 Hrun.
  pose proof (inv_step work N HN _ _ _ _ Hinv Hstep) as Hinv1.
  destruct (others_preserve work N HN _ _ _ _ _ Hinv1 Hp Hcs Hs Hrun)
    as (? & ? & ? & ?).
  by apply HQ.
Qed.

Lemma after_step_nil work tid st st1 (Q : state → Prop) :
  step work (Worker tid) st = Next st1 → Q st1 → after_step work tid [] st Q.
Proof.
  intros Hstep HQ. exists st1. split; [done|].
  intros st2 Hrun. simpl in Hrun. by simplify_eq.
Qed.

(** The step of a worker that has claimed row [c]: it reads the row
    [work[c]], and [c] is the row that it has summed. *)
Lemma work_step work N tid c st :
  valid_threads N → inv work N true st →
  threads st !! tid = Some (DWork c) →
  ∃ st', step work (Worker tid) st = Next st' ∧
         threads st' !! tid = Some DLock ∧
         handled st' !! tid = (λ l, l ++ [c]) <$> handled st !! tid.
Proof.
  intros HN Hinv Hp.
  pose proof (step_safe work N HN true (Worker tid) st Hinv) as Hsafe.
  destruct (step work (Worker tid) st) as [st'| |] eqn:Hstep; [|exfalso..].
  - exists st'. split; [done|].
    simpl in Hstep. unfold step_worker in Hstep. rewrite Hp in Hstep.
    unfold sum_dynamic, row_summed in Hstep.
    repeat case_match; simplify_eq. simpl.
    split; [by eapply lookup_own|by rewrite list_lookup_alter_eq].
  - simpl in Hstep. unfold step_worker in Hstep. rewrite Hp in Hstep.
    unfold sum_dynamic in Hstep. repeat case_match; simplify_eq.
  - done.
Qed.

(** [unlock()] by the thread that holds the lock. *)
Lemma unlock_step work tid dn c st :
  threads st !! tid = Some (DUnlock dn c) → counter_lock st = Some tid →
  ∃ st', step work (Worker tid) st = Next st' ∧
         counter st' = counter st ∧ counter_lock st' = None ∧
         threads st' !! tid = Some (if dn then Finished else DWork c).
Proof.
  intros Hp Hl. eexists. split.
  - simpl. unfold step_worker. rewrite Hp. simpl.
    rewrite decide_True by done. reflexivity.
  - simpl. split_and!; [done..|]. by eapply lookup_own.
Qed.


(** * Concrete executions *)

(** The state that a schedule leads to ([st0] if it does not run). *)
Definition result (work : matrix) (sched : list actor) (st0 : state) : state :=
  match run work sched st0 with
  | Next st => st
  | _ => st0
  end.

(** A matrix to run the program on: entry [row * cols + i] at [row], [i]. *)
Definition ramp : matrix := λ row i, row * cols + i.

(** Two static workers that alternate, then [main] joins both and returns. *)
Definition static_schedule : list actor :=
  mjoin (replicate 501 [Worker 0; Worker 1]) ++ [Main; Main; Main].

(** The five steps of a successful claim, and the four steps of the last
    one, of worker [tid] alone. *)
Definition claim (tid : nat) : list actor := replicate 5 (Worker tid).
Definition last_claim (tid : nat) : list actor := replicate 4 (Worker tid).

(** Two dynamic workers.  A round: both claim a row, worker 0 sums its row
    and claims the next one, worker 1 sums its row, worker 0 sums its second
    row.  After 333 rounds worker 0 claims and sums the last row; both find
    the counter at 0 and return; [main] joins them and returns. *)
Definition dynamic_schedule : list actor :=
  mjoin (replicate 333 (claim 0 ++ claim 1 ++ [Worker 0] ++ claim 0
                        ++ [Worker 1; Worker 0]))
  ++ claim 0 ++ [Worker 0]
  ++ last_claim 0 ++ last_claim 1 ++ [Main; Main; Main].

Definition static_end : state :=
  Eval vm_compute in result ramp static_schedule (init false 2).

Definition dynamic_end : state :=
  Eval vm_compute in result ramp dynamic_schedule (init true 2).

(** Worker 1 has made the first claim of a dynamic execution and is about to
    sum its row; then worker 0 makes the second claim, while worker 1 sums
    its row. *)
Definition claim_start : state :=
  Eval vm_compute in result ramp (claim 1) (init true 2).

Definition claim_end : state :=
  Eval vm_compute in
    result ramp (critical_section 0 999 [Worker 1] [] [] []) claim_start.

Lemma valid_threads_2 : valid_threads 2.
Proof. unfold valid_threads, rows, INT_MAX. lia. Qed.

Lemma ramp_rand_filled : rand_filled ramp.
Proof.
  intros row i Hrow Hi. unfold ramp, rows, cols, INT_MAX in *. lia.
Qed.

Lemma static_run : run ramp static_schedule (init false 2) = Next static_end.
Proof. vm_compute. reflexivity. Qed.

Lemma dynamic_run : run ramp dynamic_schedule (init true 2) = Next dynamic_end.
Proof. vm_compute. reflexivity. Qed.

Lemma claim_start_run : run ramp (claim 1) (init true 2) = Next claim_start.
Proof. vm_compute. reflexivity. Qed.

(** The two strategies distribute the rows differently. *)
Lemma distributions_differ :
  tcount static_end = [500; 500] ∧ tcount dynamic_end = [667; 333] ∧
  sum static_end ≠ sum dynamic_end.
Proof. split_and!; [reflexivity..|]. vm_compute. congruence. Qed.

(** Worker 0 of a dynamic execution has taken the lock, tested the counter
    and decremented it; worker 1 waits for the lock. *)
Definition in_section : state :=
  Eval vm_compute in result ramp (replicate 3 (Worker 0)) (init true 2).

(** Worker 1 has claimed and summed two rows. *)
Definition two_rows : state :=
  Eval vm_compute in
    result ramp (claim 1 ++ [Worker 1] ++ claim 1 ++ [Worker 1])
           (init true 2).

(** A single dynamic worker has summed one row and claimed the next. *)
Definition solo : state :=
  Eval vm_compute in result ramp (claim 0 ++ [Worker 0] ++ claim 0)
                            (init true 1).

(** 1001 static workers: the last one has no row and returns at once. *)
Definition surplus_end : state :=
  Eval vm_compute in result ramp [Worker 1000] (init false 1001).

(** 1000 static workers: worker 0 has summed its row and returned, and
    [main] has joined it. *)
Definition one_joined : state :=
  Eval vm_compute in
    result ramp [Worker 0; Worker 0; Main] (init false 1000).

(** A generator that counts: call [k] returns [k] modulo [rows * cols]. *)
Definition counting : nat → Z := λ k, Z.of_nat k mod 100000.

Lemma in_section_run :
  run ramp (replicate 3 (Worker 0)) (init true 2) = Next in_section.
Proof. vm_compute. reflexivity. Qed.

Lemma two_rows_run :
  run ramp (claim 1 ++ [Worker 1] ++ claim 1 ++ [Worker 1]) (init true 2)
  = Next two_rows.
Proof. vm_compute. reflexivity. Qed.

Lemma solo_run :
  run ramp (claim 0 ++ [Worker 0] ++ claim 0) (init true 1) = Next solo.
Proof. vm_compute. reflexivity. Qed.

Lemma surplus_run : run ramp [Worker 1000] (init false 1001) = Next surplus_end.
Proof. vm_compute. reflexivity. Qed.

Lemma one_joined_run :
  run ramp [Worker 0; Worker 0; Main] (init false 1000) = Next one_joined.
Proof. vm_compute. reflexivity. Qed.

Lemma claim_end_run :
  run ramp (critical_section 0 999 [Worker 1] [] [] []) claim_start
  = Next claim_end.
Proof. vm_compute. reflexivity. Qed.

Lemma claim_whole_run :
  run ramp (claim 1 ++ critical_section 0 999 [Worker 1] [] [] [])
      (init true 2)
  = Next claim_end.
Proof. vm_compute. reflexivity. Qed.

Lemma counting_range k : 0 ≤ counting k ≤ INT_MAX.
Proof.
  unfold counting, INT_MAX.
  pose proof (Z.mod_pos_bound (Z.of_nat k) 100000). lia.
Qed.

Lemma ramp_counting row i :
  0 ≤ row < rows → 0 ≤ i < cols →
  ramp row i = fst (fill_work counting) row i.
Proof.
  intros Hrow Hi. destruct (fill_work_spec counting) as [_ ->].
  rewrite decide_True by (split; assumption).
  unfold ramp, counting. unfold rows, cols in *.
  rewrite Z2Nat.id by lia. rewrite Z.mod_small; lia.
Qed.

Lemma valid_threads_1000 : valid_threads 1000.
Proof. unfold valid_threads, rows, INT_MAX. lia. Qed.

Lemma valid_threads_1001 : valid_threads 1001.
Proof. unfold valid_threads, rows, INT_MAX. lia. Qed.

Lemma valid_threads_8 : valid_threads 8.
Proof. unfold valid_threads, rows, INT_MAX. lia. Qed.

(** 1001 dynamic workers: workers 0 to 999 have claimed a row each, the
    counter is 0, and worker 1000 is about to call [lock()]. *)
Definition all_claimed : state :=
  Eval vm_compute in
    result ramp (mjoin (claim <$> seq 0 1000)) (init true 1001).

Lemma all_claimed_run :
  run ramp (mjoin (claim <$> seq 0 1000)) (init true 1001) = Next all_claimed.
Proof. vm_compute. reflexivity. Qed.

(** * The properties of the specification *)



(** C2 (totals): after all the workers have finished and [main] has summed
    the per-worker results, [total_work] equals [rows] and [gross_sum] equals
    the sum of all the [rows * cols] elements of the matrix, for both
    strategies and for every valid thread count.  (The matrix holds what
    [rand()] returned.) *)
Theorem totals_correct (work : matrix) (dFlag : bool) (N : Z)
    (sched : list actor) (st : state) :
  valid_threads N →
  rand_filled work →
  run work sched (init dFlag N) = Next st →
  exit_code st = Some 0 →
  total_work st = rows ∧ gross_sum st = matrix_total work.
Proof.
  intros HN Hw Hrun Hex.
  pose proof (inv_reachable work N HN _ _ _ Hrun) as Hinv.
  destruct (final_totals work N HN _ _ _ Hinv Hex) as [-> ->].
  split; [done|]. apply to_uint64_small. by apply matrix_total_range.
Qed.

Lemma totals_correct_witness :
  total_work static_end = rows ∧ gross_sum static_end = matrix_total ramp.
Proof.
  apply (totals_correct ramp false 2 static_schedule static_end).
  - exact valid_threads_2.
  - exact ramp_rand_filled.
  - exact static_run.
  - reflexivity.
Defined.

(** C3, amended (the claim protocol): in the dynamic strategy a claim is one
    critical section under [counter_lock], whatever the other threads do in
    between.  When [lock()] returns, every further step of the claiming
    worker can be taken, and the steps [s1], ..., [s4] of the other threads
    in between leave the counter as it is: if the counter is above 0 when the
    lock is taken, it is decremented exactly once and the value after the
    decrement (one less than the value found) is the row index that the
    claiming worker then sums; if the counter is 0 the worker returns and the
    counter is not decremented. *)
Theorem claim_atomic (work : matrix) (N : Z) (sched : list actor)
    (st : state) (tid : nat) (s1 s2 s3 s4 : list actor) :
  valid_threads N →
  run work sched (init true N) = Next st →
  threads st !! tid = Some DLock → counter_lock st = None →
  Forall (λ a, a ≠ Worker tid) (s1 ++ s2 ++ s3 ++ s4) →
  after_step work tid s1 st (λ st1,                      (* lock() *)
    counter_lock st1 = Some tid ∧ counter st1 = counter st ∧
    after_step work tid s2 st1 (λ st2,                   (* the test *)
      if decide (0 < counter st) then
        after_step work tid s3 st2 (λ st3,               (* --counter *)
          counter st3 = counter st - 1 ∧
          after_step work tid s4 st3 (λ st4,             (* the copy *)
            counter st4 = counter st - 1 ∧
            after_step work tid [] st4 (λ st5,           (* unlock() *)
              counter st5 = counter st - 1 ∧ counter_lock st5 = None ∧
              threads st5 !! tid = Some (DWork (counter st - 1)) ∧
              ∀ s5 st6,
                Forall (λ a, a ≠ Worker tid) s5 →
                run work s5 st5 = Next st6 →
                ∃ st7, step work (Worker tid) st6 = Next st7 ∧
                       handled st7 !! tid
                       = (λ l, l ++ [counter st - 1])
                           <$> handled st5 !! tid)))
      else
        counter st = 0 ∧
        after_step work tid s3 st2 (λ st3,               (* the copy *)
          counter st3 = 0 ∧
          after_step work tid [] st3 (λ st4,             (* unlock() *)
            counter st4 = 0 ∧ counter_lock st4 = None ∧
            threads st4 !! tid = Some Finished ∧
            step work (Worker tid) st4 = Blocked)))).
Proof.
  intros HN Hrun Hp Hfree Hs.
  pose proof (inv_reachable work N HN _ _ _ Hrun) as Hinv.
  apply Forall_app in Hs as [H1 Hs]. apply Forall_app in Hs as [H2 Hs].
  apply Forall_app in Hs as [H3 H4].
  assert (0 ≤ counter st) as Hc0.
  { destruct Hinv as (_ & _ & Hdyn). pose proof (dyn_counter _ Hdyn). lia. }
  (* lock() *)
  eapply (after_step_cs work N tid DTest); [done|done| | |done|done|].
  { simpl. unfold step_worker. rewrite Hp. simpl. rewrite Hfree.
    reflexivity. }
  { simpl. by eapply lookup_own. }
  simpl. intros st1 Hinv1 Hp1 Hc1 Hl1. split_and!; [done..|].
  destruct (decide (0 < counter st)) as [Hc|Hc].
  - (* the test *)
    eapply (after_step_cs work N tid DDec); [done|done| | |done|done|].
    { simpl. unfold step_worker. rewrite Hp1. simpl.
      rewrite decide_True by lia. reflexivity. }
    { simpl. by eapply lookup_own. }
    simpl. intros st2 Hinv2 Hp2 Hc2 Hl2.
    (* --counter *)
    assert (in_int (counter st2 - 1)) as Hint.
    { unfold in_int, INT_MIN, INT_MAX.
      destruct Hinv2 as (_ & _ & Hdyn). pose proof (dyn_counter _ Hdyn).
      unfold rows in *. lia. }
    eapply (after_step_cs work N tid (DCopy false)); [done|done| | |done|done|].
    { simpl. unfold step_worker. rewrite Hp2. simpl.
      rewrite decide_True by done. reflexivity. }
    { simpl. by eapply lookup_own. }
    simpl. intros st3 Hinv3 Hp3 Hc3 Hl3. split; [lia|].
    (* count_copy = counter *)
    eapply (after_step_cs work N tid (DUnlock false (counter st3)));
      [done|done| | |done|done|].
    { simpl. unfold step_worker. rewrite Hp3. simpl. reflexivity. }
    { simpl. by eapply lookup_own. }
    simpl. intros st4 Hinv4 Hp4 Hc4 Hl4. split; [lia|].
    (* unlock() *)
    destruct (unlock_step work tid false (counter st3) st4 Hp4)
      as (st5 & Hstep5 & Hc5 & Hl5 & Hp5); [congruence|].
    eapply after_step_nil; [done|].
    replace (counter st - 1) with (counter st3) by lia.
    split_and!; [lia|done|done|].
    intros s5 st6 Hs5 Hrun5.
    pose proof (inv_step work N HN _ _ _ _ Hinv4 Hstep5) as Hinv5.
    pose proof (inv_run work N HN _ _ _ _ Hinv5 Hrun5) as Hinv6.
    destruct (others_keep work tid s5 st5 st6 Hs5 Hrun5) as [Hp6 Hh6].
    rewrite Hp5 in Hp6.
    destruct (work_step work N tid _ st6 HN Hinv6 Hp6) as (st7 & ? & _ & Hh7).
    exists st7. split; [done|]. by rewrite Hh7, Hh6.
  - assert (counter st = 0) as Hz by lia.
    (* the test *)
    eapply (after_step_cs work N tid (DCopy true)); [done|done| | |done|done|].
    { simpl. unfold step_worker. rewrite Hp1. simpl.
      rewrite decide_False by lia. reflexivity. }
    { simpl. by eapply lookup_own. }
    simpl. intros st2 Hinv2 Hp2 Hc2 Hl2. split; [done|].
    (* count_copy = counter *)
    eapply (after_step_cs work N tid (DUnlock true (counter st2)));
      [done|done| | |done|done|].
    { simpl. unfold step_worker. rewrite Hp2. simpl. reflexivity. }
    { simpl. by eapply lookup_own. }
    simpl. intros st3 Hinv3 Hp3 Hc3 Hl3. split; [lia|].
    (* unlock() *)
    destruct (unlock_step work tid true (counter st2) st3 Hp3)
      as (st4 & Hstep4 & Hc4 & Hl4 & Hp4); [congruence|].
    eapply after_step_nil; [done|].
    split_and!; [lia|done|done|].
    simpl. unfold step_worker. by rewrite Hp4.
Qed.

Lemma claim_atomic_witness :
  counter claim_start = 999 ∧ counter all_claimed = 0 ∧
  after_step ramp 0 [Worker 1] claim_start (λ st1,
    counter_lock st1 = Some 0%nat ∧ counter st1 = counter claim_start ∧
    after_step ramp 0 [] st1 (λ st2,
      if decide (0 < counter claim_start) then
        after_step ramp 0 [] st2 (λ st3,
          counter st3 = counter claim_start - 1 ∧
          after_step ramp 0 [] st3 (λ st4,
            counter st4 = counter claim_start - 1 ∧
            after_step ramp 0 [] st4 (λ st5,
              counter st5 = counter claim_start - 1 ∧ counter_lock st5 = None ∧
              threads st5 !! 0%nat = Some (DWork (counter claim_start - 1)) ∧
              ∀ s5 st6,
                Forall (λ a, a ≠ Worker 0) s5 →
                run ramp s5 st5 = Next st6 →
                ∃ st7, step ramp (Worker 0) st6 = Next st7 ∧
                       handled st7 !! 0%nat
                       = (λ l, l ++ [counter claim_start - 1])
                           <$> handled st5 !! 0%nat)))
      else
        counter claim_start = 0 ∧
        after_step ramp 0 [] st2 (λ st3,
          counter st3 = 0 ∧
          after_step ramp 0 [] st3 (λ st4,
            counter st4 = 0 ∧ counter_lock st4 = None ∧
            threads st4 !! 0%nat = Some Finished ∧
            step ramp (Worker 0) st4 = Blocked)))) ∧
  after_step ramp 1000 [Worker 0] all_claimed (λ st1,
    counter_lock st1 = Some 1000%nat ∧ counter st1 = counter all_claimed ∧
    after_step ramp 1000 [] st1 (λ st2,
      if decide (0 < counter all_claimed) then
        after_step ramp 1000 [] st2 (λ st3,
          counter st3 = counter all_claimed - 1 ∧
          after_step ramp 1000 [] st3 (λ st4,
            counter st4 = counter all_claimed - 1 ∧
            after_step ramp 1000 [] st4 (λ st5,
              counter st5 = counter all_claimed - 1 ∧ counter_lock st5 = None ∧
              threads st5 !! 1000%nat = Some (DWork (counter all_claimed - 1)) ∧
              ∀ s5 st6,
                Forall (λ a, a ≠ Worker 1000) s5 →
                run ramp s5 st5 = Next st6 →
                ∃ st7, step ramp (Worker 1000) st6 = Next st7 ∧
                       handled st7 !! 1000%nat
                       = (λ l, l ++ [counter all_claimed - 1])
                           <$> handled st5 !! 1000%nat)))
      else
        counter all_claimed = 0 ∧
        after_step ramp 1000 [] st2 (λ st3,
          counter st3 = 0 ∧
          after_step ramp 1000 [] st3 (λ st4,
            counter st4 = 0 ∧ counter_lock st4 = None ∧
            threads st4 !! 1000%nat = Some Finished ∧
            step ramp (Worker 1000) st4 = Blocked)))).
Proof.
  split; [reflexivity|]. split; [reflexivity|]. split.
  - apply (claim_atomic ramp 2 (claim 1) claim_start 0 [Worker 1] [] [] []).
    + exact valid_threads_2.
    + exact claim_start_run.
    + reflexivity.
    + reflexivity.
    + repeat constructor. discriminate.
  - apply (claim_atomic ramp 1001 (mjoin (claim <$> seq 0 1000)) all_claimed
                        1000 [Worker 0] [] [] []).
    + exact valid_threads_1001.
    + exact all_claimed_run.
    + reflexivity.
    + reflexivity.
    + repeat constructor. discriminate.
Defined.

(** C3 as stated fails: the first claim of an execution finds the counter at
    [rows = 1000]; the row that the claiming worker then sums is 999, the
    value after the decrement, not the value before it (which is no row of
    the matrix). *)
Lemma claim_row_is_not_pre_decrement :
  counter (init true 2) = 1000 ∧
  threads claim_start !! 1%nat = Some (DWork 999) ∧
  handled (result ramp [Worker 1] claim_start) !! 1%nat = Some [999] ∧
  handled (result ramp [Worker 1] claim_start) !! 1%nat
  ≠ Some [counter (init true 2)].
Proof. split_and!; [reflexivity..|]. vm_compute. congruence. Qed.

(** C4 (the static worker): in the static strategy, for every [tid] in
    [0, N), worker [tid] sums exactly the rows [tid, tid + N, tid + 2N, ...]
    that are below [rows]: when it has returned, these are its rows, in this
    order, [tcount[tid]] is their number and [sum[tid]] the sum of their
    [cols] values each; and no step of the worker touches the entries of
    another worker or the totals. *)
Theorem static_worker_rows (work : matrix) (N : Z) (sched : list actor)
    (st : state) (tid : nat) :
  valid_threads N →
  Z.of_nat tid < N →
  run work sched (init false N) = Next st →
  all_done st = true →
  (handled st !! tid = Some (strided_rows N tid) ∧
   tcount st !! tid = Some (lenZ (strided_rows N tid)) ∧
   sum st !! tid
   = Some (to_uint64 (rows_total work (strided_rows N tid)))) ∧
  ∀ st1 st2 other,
    step work (Worker tid) st1 = Next st2 → other ≠ tid →
    tcount st2 !! other = tcount st1 !! other ∧
    sum st2 !! other = sum st1 !! other ∧
    handled st2 !! other = handled st1 !! other ∧
    threads st2 !! other = threads st1 !! other ∧
    total_work st2 = total_work st1 ∧ gross_sum st2 = gross_sum st1.
Proof.
  intros HN Htid Hrun Hdone.
  pose proof (inv_reachable work N HN _ _ _ Hrun) as Hinv. split.
  - pose proof Hinv as (Hacct & _).
    destruct (lookup_lt_is_Some_2 (threads st) tid) as [p Hp].
    { rewrite (acct_threads _ _ _ Hacct). lia. }
    pose proof (all_done_lookup _ _ _ Hdone Hp) as ->.
    pose proof (static_final work N HN _ _ Hinv Hp) as Hl.
    destruct (acct_lookups work N _ _ _ Hacct Hp) as (l & Hl' & Htc & Hs).
    rewrite Hl in Hl'. by simplify_eq.
  - intros st1 st2 other Hstep Hne. simpl in Hstep.
    destruct (worker_step_other work _ _ _ other Hstep Hne)
      as (? & ? & ? & ?).
    apply worker_step_frame in Hstep as (_ & _ & _ & _ & _ & ? & ?).
    by split_and!.
Qed.

Lemma static_worker_rows_witness :
  (handled static_end !! 1%nat = Some (strided_rows 2 1) ∧
   tcount static_end !! 1%nat = Some (lenZ (strided_rows 2 1)) ∧
   sum static_end !! 1%nat
   = Some (to_uint64 (rows_total ramp (strided_rows 2 1)))) ∧
  ∀ st1 st2 other,
    step ramp (Worker 1) st1 = Next st2 → other ≠ 1%nat →
    tcount st2 !! other = tcount st1 !! other ∧
    sum st2 !! other = sum st1 !! other ∧
    handled st2 !! other = handled st1 !! other ∧
    threads st2 !! other = threads st1 !! other ∧
    total_work st2 = total_work st1 ∧ gross_sum st2 = gross_sum st1.
Proof.
  apply (static_worker_rows ramp 2 static_schedule static_end 1).
  - exact valid_threads_2.
  - lia.
  - exact static_run.
  - reflexivity.
Defined.

(** C5 (strategy equivalence): for the same matrix and the same valid thread
    count, an execution of the static strategy and an execution of the
    dynamic strategy end with the same [gross_sum] and the same
    [total_work]. *)
Theorem strategies_agree (work : matrix) (N : Z) (sched1 sched2 : list actor)
    (st1 st2 : state) :
  valid_threads N →
  run work sched1 (init false N) = Next st1 → exit_code st1 = Some 0 →
  run work sched2 (init true N) = Next st2 → exit_code st2 = Some 0 →
  gross_sum st1 = gross_sum st2 ∧ total_work st1 = total_work st2.
Proof.
  intros HN Hrun1 Hex1 Hrun2 Hex2.
  pose proof (inv_reachable work N HN _ _ _ Hrun1) as Hinv1.
  pose proof (inv_reachable work N HN _ _ _ Hrun2) as Hinv2.
  destruct (final_totals work N HN _ _ _ Hinv1 Hex1) as [-> ->].
  by destruct (final_totals work N HN _ _ _ Hinv2 Hex2) as [-> ->].
Qed.

Lemma strategies_agree_witness :
  gross_sum static_end = gross_sum dynamic_end ∧
  total_work static_end = total_work dynamic_end.
Proof.
  apply (strategies_agree ramp 2 static_schedule dynamic_schedule).
  - exact valid_threads_2.
  - exact static_run.
  - reflexivity.
  - exact dynamic_run.
  - reflexivity.
Defined.

(** C6 (termination): for every thread count [N >= 1] both worker loops
    terminate: under either strategy an execution has at most [max_steps N]
    steps, never runs into undefined behaviour, and from each of its states
    the program runs to the end, where all the workers have returned and
    [main] returns 0.  [N >= 1] is needed: a static worker called with
    [num_threads = 0] on a row of the matrix never leaves its loop, and left
    alone it overflows [tcount[tid]], which is undefined behaviour. *)
Theorem workers_terminate (work : matrix) (dFlag : bool) (N : Z)
    (sched : list actor) (st : state) :
  valid_threads N →
  run work sched (init dFlag N) = Next st →
  ((length sched ≤ max_steps N)%nat ∧
   (∀ sched', run work sched' st ≠ Fault) ∧
   ∃ sched' st', run work sched' st = Next st' ∧
                 exit_code st' = Some 0 ∧ all_done st' = true) ∧
  ∀ st0 tid row,
    threads st0 !! tid = Some (SLoop 0 row) → 0 ≤ row < 1000 →
    (∀ sched' st', run work sched' st0 = Next st' →
                   threads st' !! tid = Some (SLoop 0 row)) ∧
    (∀ tc s, tcount st0 !! tid = Some tc → 0 ≤ tc ≤ INT_MAX →
             sum st0 !! tid = Some s → 0 ≤ s < 2 ^ 64 →
             run work (replicate (S (Z.to_nat (INT_MAX - tc))) (Worker tid))
                 st0 = Fault).
Proof.
  intros HN Hrun. pose proof (inv_reachable work N HN _ _ _ Hrun) as Hinv.
  split; [split_and!|].
  - pose proof (run_length work N HN _ _ _ _ (inv_init work N HN dFlag) Hrun).
    pose proof (measure_init dFlag N HN). lia.
  - intros sched'. by eapply run_safe.
  - by eapply completes.
  - intros st0 tid row Hp Hrow. split.
    + intros sched' st' Hrun'.
      eapply static_zero_stuck; [done|lia|done].
    + intros tc s Htc Htcr Hs Hsr.
      eapply static_zero_overflow; try done; lia.
Qed.

Lemma workers_terminate_witness :
  ((length (claim 1) ≤ max_steps 2)%nat ∧
   (∀ sched', run ramp sched' claim_start ≠ Fault) ∧
   ∃ sched' st', run ramp sched' claim_start = Next st' ∧
                 exit_code st' = Some 0 ∧ all_done st' = true) ∧
  ∀ st0 tid row,
    threads st0 !! tid = Some (SLoop 0 row) → 0 ≤ row < 1000 →
    (∀ sched' st', run ramp sched' st0 = Next st' →
                   threads st' !! tid = Some (SLoop 0 row)) ∧
    (∀ tc s, tcount st0 !! tid = Some tc → 0 ≤ tc ≤ INT_MAX →
             sum st0 !! tid = Some s → 0 ≤ s < 2 ^ 64 →
             run ramp (replicate (S (Z.to_nat (INT_MAX - tc))) (Worker tid))
                 st0 = Fault).
Proof.
  apply (workers_terminate ramp true 2 (claim 1) claim_start).
  - exact valid_threads_2.
  - exact claim_start_run.
Defined.

(** C7, amended (the thread count): [main] starts 2 threads when no [-t] is
    given.  A supplied value is converted to [uint32_t]: a non-negative value
    below 2 becomes 2, a value of at least 2 above the hardware concurrency
    becomes the hardware concurrency, a value in between is kept, and [main]
    starts that number of threads; when the hardware concurrency is at least
    2, the number of threads that [main] starts lies in
    [2, hardwareConcurrency] for every command line. *)
Theorem thread_count_clamped (maxThreads value : Z)
    (pre post : list getopt_result) :
  0 ≤ maxThreads ≤ UINT32_MAX →
  0 ≤ value ≤ INT_MAX →
  Opt_other ∉ pre → Forall (λ o, o = Opt_d) post →
  (∃ dFlag, main maxThreads post = Start (init dFlag 2)) ∧
  (∃ dFlag, main maxThreads (pre ++ Opt_t value :: post)
            = Start (init dFlag (set_limiter maxThreads value))) ∧
  (value < 2 → set_limiter maxThreads value = 2) ∧
  (2 ≤ value → maxThreads < value →
   set_limiter maxThreads value = maxThreads) ∧
  (2 ≤ value ≤ maxThreads → set_limiter maxThreads value = value) ∧
  (2 ≤ maxThreads →
   ∀ v, in_int v → 2 ≤ set_limiter maxThreads v ≤ maxThreads) ∧
  (2 ≤ maxThreads →
   ∀ opts st0, main maxThreads opts = Start st0 →
               ∃ dFlag limiter, st0 = init dFlag limiter ∧
                                2 ≤ limiter ≤ maxThreads).
Proof.
  intros Hhw Hv Hpre Hpost.
  assert (to_uint32 value = value) as Hu.
  { apply to_uint32_small. unfold UINT32_MAX, INT_MAX in *. lia. }
  split_and!.
  - destruct (options_only_d maxThreads post false 2 Hpost) as [d Hd].
    exists d. unfold main. by rewrite Hd.
  - destruct (options_last_t maxThreads pre value post false 2 Hpre Hpost)
      as [d Hd].
    exists d. unfold main. by rewrite Hd.
  - intros. unfold set_limiter. rewrite Hu. by rewrite decide_True.
  - intros. unfold set_limiter. rewrite Hu.
    rewrite decide_False by lia. by rewrite decide_True.
  - intros. unfold set_limiter. rewrite Hu.
    rewrite decide_False by lia. by rewrite decide_False by lia.
  - intros ? v _. by apply set_limiter_range.
  - intros H2 opts st0 Hmain. unfold main in Hmain.
    destruct (options maxThreads opts false 2) as [[d l]|] eqn:Hopts;
      [|done].
    simplify_eq. exists d, l. split; [done|].
    assert (2 ≤ 2 ≤ maxThreads) as Hl by lia.
    exact (options_range _ _ _ _ _ _ H2 Hl Hopts).
Qed.

Lemma thread_count_clamped_witness :
  (∃ dFlag, main 8 [Opt_d] = Start (init dFlag 2)) ∧
  (∃ dFlag, main 8 ([Opt_t 5] ++ Opt_t 1 :: [Opt_d])
            = Start (init dFlag (set_limiter 8 1))) ∧
  (1 < 2 → set_limiter 8 1 = 2) ∧
  (2 ≤ 1 → 8 < 1 → set_limiter 8 1 = 8) ∧
  (2 ≤ 1 ≤ 8 → set_limiter 8 1 = 1) ∧
  (2 ≤ 8 → ∀ v, in_int v → 2 ≤ set_limiter 8 v ≤ 8) ∧
  (2 ≤ 8 →
   ∀ opts st0, main 8 opts = Start st0 →
               ∃ dFlag limiter, st0 = init dFlag limiter ∧ 2 ≤ limiter ≤ 8).
Proof.
  apply (thread_count_clamped 8 1 [Opt_t 5] [Opt_d]).
  - unfold UINT32_MAX. lia.
  - unfold INT_MAX. lia.
  - intros [H|H]%elem_of_cons; [discriminate|by apply elem_of_nil in H].
  - repeat constructor.
Defined.

(** C7 as stated fails: [-t -1] is a value below 2, and the thread count
    becomes the hardware concurrency (here 8), not 2; and with a hardware
    concurrency of 1 the value 5 becomes 1, which is below 2. *)
Lemma negative_count_not_raised :
  -1 < 2 ∧ main 8 [Opt_t (-1)] = Start (init false 8) ∧
  set_limiter 8 (-1) ≠ 2 ∧ set_limiter 1 5 = 1.
Proof. split_and!; [lia|reflexivity| |reflexivity]. vm_compute. congruence. Qed.

(** C8, amended (configuration errors): an option that is not recognized
    makes the program print the usage text and end with exit code 1.  A
    thread count out of range is no error: it is clamped, the threads are
    started, and the program ends normally, with exit code 0. *)
Theorem usage_exit (work : matrix) (maxThreads : Z)
    (opts : list getopt_result) :
  2 ≤ maxThreads →
  valid_threads maxThreads →
  (Opt_other ∈ opts →
   main maxThreads opts = Usage (fst usage) 1 ∧
   ∀ sched, main_exit work maxThreads opts sched = Some 1) ∧
  (Opt_other ∉ opts →
   (∃ dFlag limiter, main maxThreads opts = Start (init dFlag limiter)) ∧
   (∀ sched code, main_exit work maxThreads opts sched = Some code →
                  code = 0) ∧
   ∃ sched, main_exit work maxThreads opts sched = Some 0).
Proof.
  intros Hhw2 [_ Hmax]. split.
  - intros Hin. unfold main_exit, main.
    by rewrite (options_other _ _ _ _ Hin).
  - intros Hnin. unfold main_exit, main.
    destruct (options_no_other maxThreads opts false 2 Hnin)
      as (d & l & Hopts).
    rewrite Hopts. split_and!.
    + by exists d, l.
    + intros sched code Hex.
      destruct (run work sched (init d l)) as [st| |] eqn:Hrun; [|done..].
      eapply exit_code_run; [|done..]. by intros c [=].
    + assert (valid_threads l) as Hl.
      { clear Hnin. revert Hopts. generalize false at 1.
        assert (valid_threads 2) as H2.
        { unfold valid_threads, rows, INT_MAX. lia. }
        revert H2. generalize 2 at 1 2.
        induction opts as [|o opts IH]; intros l0 Hl0 d0 Hopts; simpl in *.
        - by simplify_eq.
        - destruct o; [by eapply IH| |done].
          eapply IH; [|done].
          pose proof (set_limiter_range maxThreads value Hhw2).
          unfold valid_threads in *. lia. }
      destruct (completes work l Hl d (init d l) (inv_init work l Hl d))
        as (sched & st' & Hrun & Hex & _).
      exists sched. by rewrite Hrun.
Qed.

Lemma usage_exit_witness :
  (main 8 [Opt_d; Opt_other; Opt_t 4] = Usage (fst usage) 1 ∧
   ∀ sched, main_exit ramp 8 [Opt_d; Opt_other; Opt_t 4] sched = Some 1) ∧
  (∃ dFlag limiter, main 8 [Opt_t 1] = Start (init dFlag limiter)) ∧
  (∀ sched code, main_exit ramp 8 [Opt_t 1] sched = Some code → code = 0) ∧
  ∃ sched, main_exit ramp 8 [Opt_t 1] sched = Some 0.
Proof.
  assert (2 ≤ 8) as H2 by lia.
  assert (valid_threads 8) as H8.
  { unfold valid_threads, rows, INT_MAX. lia. }
  split.
  - apply (usage_exit ramp 8 [Opt_d; Opt_other; Opt_t 4] H2 H8).
    apply elem_of_cons. right. apply elem_of_cons. by left.
  - apply (usage_exit ramp 8 [Opt_t 1] H2 H8).
    intros [H|H]%elem_of_cons; [discriminate|by apply elem_of_nil in H].
Defined.

(** C8 as stated fails: the thread count 1 is out of range, and the program
    neither prints the usage text nor ends with exit code 1: it starts two
    threads and ends with exit code 0. *)
Lemma out_of_range_count_is_no_error :
  main 8 [Opt_t 1] = Start (init false 2) ∧
  main_exit ramp 8 [Opt_t 1] static_schedule = Some 0 ∧
  main_exit ramp 8 [Opt_t 1] static_schedule ≠ Some 1.
Proof.
  assert (main_exit ramp 8 [Opt_t 1] static_schedule = Some 0) as H.
  { unfold main_exit.
    change (main 8 [Opt_t 1]) with (Start (init false 2)).
    cbv beta iota. by rewrite static_run. }
  split_and!; [reflexivity|done|]. rewrite H. congruence.
Qed.

(** C9 (bounds in the dynamic strategy): the row index used to read the
    matrix is [count_copy], the value of the counter after the decrement.
    For every successful claim it lies in [0, rows - 1]: the worker leaves
    [unlock()] with it, its accesses [work[count_copy][i]] are inside the
    matrix, and [count_copy] is the row that its next step sums; every row
    that a worker has summed is a claim in [0, rows - 1], and no step of an
    execution is undefined.  The successful claims are [rows - 1],
    [rows - 2], ... in this order, down to the counter whenever the lock is
    free; every execution can be continued to a full run, and in a full run
    the [rows] claims are exactly [rows - 1] down to 0, and they are the rows
    that the workers have summed. *)
Theorem dynamic_rows_in_bounds (work : matrix) (N : Z) (sched : list actor)
    (st : state) :
  valid_threads N →
  run work sched (init true N) = Next st →
  (∀ tid c, threads st !! tid = Some (DUnlock false c) →
            c = counter st ∧ 0 ≤ c ≤ rows - 1 ∧
            ∃ st', step work (Worker tid) st = Next st' ∧
                   threads st' !! tid = Some (DWork c)) ∧
  (∀ tid c, threads st !! tid = Some (DWork c) →
            0 ≤ c ≤ rows - 1 ∧
            (∀ i, 0 ≤ i < cols → work_at work c i = Some (work c i)) ∧
            ∃ st', step work (Worker tid) st = Next st' ∧
                   handled st' !! tid
                   = (λ l, l ++ [c]) <$> handled st !! tid) ∧
  (∀ tid l, handled st !! tid = Some l →
            Forall (λ r, r ∈ claims st ∧ 0 ≤ r ≤ rows - 1) l) ∧
  (∀ a, step work a st ≠ Fault) ∧
  claims st = down_to (rows - Z.of_nat (length (claims st))) ∧
  (counter_lock st = None → claims st = down_to (counter st)) ∧
  (all_done st = true → claims st = down_to 0) ∧
  ∃ sched' st', run work sched' st = Next st' ∧ all_done st' = true ∧
                counter st' = 0 ∧ claims st' = down_to 0 ∧
                length (claims st') = Z.to_nat rows ∧
                mjoin (handled st') ≡ₚ claims st'.
Proof.
  intros HN Hrun. pose proof (inv_reachable work N HN _ _ _ Hrun) as Hinv.
  pose proof Hinv as (Hacct & _ & Hdyn). split_and!.
  - intros tid c Hp. pose proof (dyn_pc _ Hdyn _ _ Hp) as Hc. simpl in Hc.
    split; [done|].
    pose proof (pending_range _ _ _ c Hdyn Hp eq_refl). split; [lia|].
    destruct (unlock_step work tid false c st Hp) as (st' & ? & _ & _ & ?).
    { by apply (dyn_lock _ Hdyn _ _ Hp). }
    by exists st'.
  - intros tid c Hp.
    pose proof (pending_range _ _ _ c Hdyn Hp eq_refl) as Hc.
    split; [lia|]. split.
    + intros i Hi. unfold work_at. by rewrite decide_True.
    + destruct (work_step work N tid c st HN Hinv Hp) as (st' & ? & _ & ?).
      by exists st'.
  - intros tid l Hl. apply Forall_forall. intros r Hr.
    assert (r ∈ claims st) as Hin.
    { rewrite <-(dyn_cover _ Hdyn). apply elem_of_app. left.
      apply list_elem_of_join. exists l. split; [done|].
      by eapply list_elem_of_lookup_2. }
    split; [done|].
    pose proof (handled_rows_range work N true st tid l HN Hinv Hl) as Hall.
    rewrite Forall_forall in Hall. specialize (Hall r Hr). lia.
  - intros a. by eapply step_safe.
  - pose proof (dyn_claims _ Hdyn) as Hcl.
    pose proof (dyn_counter _ Hdyn) as Hc.
    assert (0 ≤ counter st + uncopied st ≤ rows) as Hr.
    { pose proof (uncopied_range st) as Hu. split; [lia|].
      unfold uncopied, uncopied_of in *.
      destruct (counter_lock st) as [t|]; [|lia].
      destruct (threads st !! t) as [p|] eqn:Hp; [|lia].
      pose proof (dyn_pc _ Hdyn _ _ Hp) as Hpc.
      destruct p as [| | | |[]| | |]; simpl in Hpc; lia. }
    rewrite Hcl at 2. unfold down_to at 2.
    rewrite length_reverse, length_seqZ, Hcl. f_equal. lia.
  - intros Hfree. rewrite (dyn_claims _ Hdyn). unfold uncopied.
    rewrite Hfree. unfold uncopied_of. f_equal. lia.
  - intros Hdone. by eapply final_claims.
  - destruct (completes work N HN true st Hinv) as (sched' & st' & Hrun' & _ & Hdone).
    pose proof (inv_run work N HN _ _ _ _ Hinv Hrun') as Hinv'.
    pose proof (final_claims work N HN st' Hinv' Hdone) as Hcl.
    exists sched', st'. split_and!; try done.
    + by destruct (final_counter work N st' HN Hinv' Hdone).
    + rewrite Hcl. unfold down_to. rewrite length_reverse, length_seqZ. lia.
    + rewrite (final_coverage work N HN true st' Hinv' Hdone), Hcl.
      unfold down_to. by rewrite reverse_Permutation, Z.sub_0_r.
Qed.

Lemma dynamic_rows_in_bounds_witness :
  all_done dynamic_end = true ∧
  threads claim_start !! 1%nat = Some (DWork 999) ∧
  ((∀ tid c, threads dynamic_end !! tid = Some (DUnlock false c) →
            c = counter dynamic_end ∧ 0 ≤ c ≤ rows - 1 ∧
            ∃ st', step ramp (Worker tid) dynamic_end = Next st' ∧
                   threads st' !! tid = Some (DWork c)) ∧
  (∀ tid c, threads dynamic_end !! tid = Some (DWork c) →
            0 ≤ c ≤ rows - 1 ∧
            (∀ i, 0 ≤ i < cols → work_at ramp c i = Some (ramp c i)) ∧
            ∃ st', step ramp (Worker tid) dynamic_end = Next st' ∧
                   handled st' !! tid
                   = (λ l, l ++ [c]) <$> handled dynamic_end !! tid) ∧
  (∀ tid l, handled dynamic_end !! tid = Some l →
            Forall (λ r, r ∈ claims dynamic_end ∧ 0 ≤ r ≤ rows - 1) l) ∧
  (∀ a, step ramp a dynamic_end ≠ Fault) ∧
  claims dynamic_end = down_to (rows - Z.of_nat (length (claims dynamic_end))) ∧
  (counter_lock dynamic_end = None → claims dynamic_end = down_to (counter dynamic_end)) ∧
  (all_done dynamic_end = true → claims dynamic_end = down_to 0) ∧
  ∃ sched' st', run ramp sched' dynamic_end = Next st' ∧ all_done st' = true ∧
                counter st' = 0 ∧ claims st' = down_to 0 ∧
                length (claims st') = Z.to_nat rows ∧
                mjoin (handled st') ≡ₚ claims st') ∧
  (∀ tid c, threads claim_start !! tid = Some (DUnlock false c) →
            c = counter claim_start ∧ 0 ≤ c ≤ rows - 1 ∧
            ∃ st', step ramp (Worker tid) claim_start = Next st' ∧
                   threads st' !! tid = Some (DWork c)) ∧
  (∀ tid c, threads claim_start !! tid = Some (DWork c) →
            0 ≤ c ≤ rows - 1 ∧
            (∀ i, 0 ≤ i < cols → work_at ramp c i = Some (ramp c i)) ∧
            ∃ st', step ramp (Worker tid) claim_start = Next st' ∧
                   handled st' !! tid
                   = (λ l, l ++ [c]) <$> handled claim_start !! tid) ∧
  (∀ tid l, handled claim_start !! tid = Some l →
            Forall (λ r, r ∈ claims claim_start ∧ 0 ≤ r ≤ rows - 1) l) ∧
  (∀ a, step ramp a claim_start ≠ Fault) ∧
  claims claim_start = down_to (rows - Z.of_nat (length (claims claim_start))) ∧
  (counter_lock claim_start = None → claims claim_start = down_to (counter claim_start)) ∧
  (all_done claim_start = true → claims claim_start = down_to 0) ∧
  ∃ sched' st', run ramp sched' claim_start = Next st' ∧ all_done st' = true ∧
                counter st' = 0 ∧ claims st' = down_to 0 ∧
                length (claims st') = Z.to_nat rows ∧
                mjoin (handled st') ≡ₚ claims st'.
Proof.
  split; [reflexivity|]. split; [reflexivity|]. split.
  - apply (dynamic_rows_in_bounds ramp 2 dynamic_schedule dynamic_end).
    + exact valid_threads_2.
    + exact dynamic_run.
  - apply (dynamic_rows_in_bounds ramp 2 (claim 1) claim_start).
    + exact valid_threads_2.
    + exact claim_start_run.
Defined.

(** C10 (a negative [-t]): [atoi] returns an [int], which is assigned to the
    [uint32_t] thread count: a negative value wraps modulo 2^32 to a number
    of at least 2^31, which is above the hardware concurrency, so that the
    thread count becomes the hardware concurrency, and not 2. *)
Theorem negative_count_wraps (maxThreads value : Z)
    (pre post : list getopt_result) :
  0 ≤ maxThreads < 2 ^ 31 →
  INT_MIN ≤ value < 0 →
  Opt_other ∉ pre → Forall (λ o, o = Opt_d) post →
  to_uint32 value = value + 2 ^ 32 ∧
  2 ^ 31 ≤ to_uint32 value ∧
  set_limiter maxThreads value = maxThreads ∧
  ∃ dFlag, main maxThreads (pre ++ Opt_t value :: post)
           = Start (init dFlag maxThreads).
Proof.
  intros Hhw Hv Hpre Hpost.
  pose proof (to_uint32_neg value Hv) as Hu.
  assert (set_limiter maxThreads value = maxThreads) as Hset.
  { unfold set_limiter. rewrite Hu. unfold INT_MIN in *.
    rewrite decide_False by lia. by rewrite decide_True by lia. }
  split_and!; [done|unfold INT_MIN in *; lia|done|].
  destruct (options_last_t maxThreads pre value post false 2 Hpre Hpost)
    as [d Hopts].
  exists d. unfold main. by rewrite Hopts, Hset.
Qed.

Lemma negative_count_wraps_witness :
  to_uint32 (-1) = -1 + 2 ^ 32 ∧
  2 ^ 31 ≤ to_uint32 (-1) ∧
  set_limiter 8 (-1) = 8 ∧
  ∃ dFlag, main 8 ([Opt_d] ++ Opt_t (-1) :: []) = Start (init dFlag 8).
Proof.
  apply (negative_count_wraps 8 (-1) [Opt_d] []).
  - lia.
  - unfold INT_MIN. lia.
  - intros [H|H]%elem_of_cons; [discriminate|by apply elem_of_nil in H].
  - constructor.
Defined.

(** * Further properties of the program *)

(** X1 (mutual exclusion): in a dynamic execution, while a thread is
    between [counter_lock.lock()] and [counter_lock.unlock()] it owns the
    lock and no other thread is between the two calls. *)
Theorem mutual_exclusion (work : matrix) (N : Z) (sched : list actor)
    (st : state) (t1 t2 : nat) (p1 p2 : pc) :
  valid_threads N →
  run work sched (init true N) = Next st →
  threads st !! t1 = Some p1 → threads st !! t2 = Some p2 →
  in_cs p1 = true → t1 ≠ t2 →
  counter_lock st = Some t1 ∧ in_cs p2 = false.
Proof.
  intros HN Hrun Hp1 Hp2 Hcs Hne.
  destruct (inv_reachable work N HN _ _ _ Hrun) as (_ & _ & Hdyn).
  pose proof (proj1 (dyn_lock _ Hdyn _ _ Hp1) Hcs) as HL.
  split; [done|]. destruct (in_cs p2) eqn:Hcs2; [|done].
  pose proof (proj1 (dyn_lock _ Hdyn _ _ Hp2) Hcs2). congruence.
Qed.

Lemma mutual_exclusion_witness :
  counter_lock in_section = Some 0%nat ∧ in_cs DLock = false.
Proof.
  apply (mutual_exclusion ramp 2 (replicate 3 (Worker 0)) in_section
                          0 1 (DCopy false) DLock).
  - exact valid_threads_2.
  - exact in_section_run.
  - reflexivity.
  - reflexivity.
  - reflexivity.
  - discriminate.
Defined.

(** X2 (the counter counts down): in a dynamic execution the counter stays
    in [0, rows] and never increases; when the workers have returned it is 0
    and the lock is free. *)
Theorem counter_counts_down (work : matrix) (N : Z) (sched sched' : list actor)
    (st st' : state) :
  valid_threads N →
  run work sched (init true N) = Next st →
  run work sched' st = Next st' →
  0 ≤ counter st' ≤ counter st ∧ counter st ≤ rows ∧
  (all_done st' = true → counter st' = 0 ∧ counter_lock st' = None).
Proof.
  intros HN Hrun Hrun'.
  pose proof (inv_reachable work N HN _ _ _ Hrun) as Hinv.
  pose proof (inv_run work N HN _ _ _ _ Hinv Hrun') as Hinv'.
  pose proof (counter_run _ _ _ _ Hrun').
  destruct Hinv as (_ & _ & Hdyn). pose proof (dyn_counter _ Hdyn).
  pose proof Hinv' as (_ & _ & Hdyn'). pose proof (dyn_counter _ Hdyn').
  split_and!; try lia. intros Hdone. by eapply final_counter.
Qed.

Lemma counter_counts_down_witness :
  0 ≤ counter claim_end ≤ counter claim_start ∧ counter claim_start ≤ rows ∧
  (all_done claim_end = true →
   counter claim_end = 0 ∧ counter_lock claim_end = None).
Proof.
  apply (counter_counts_down ramp 2 (claim 1)
           (critical_section 0 999 [Worker 1] [] [] [])).
  - exact valid_threads_2.
  - exact claim_start_run.
  - exact claim_end_run.
Defined.

(** X3 (the static strategy needs no lock): a static execution never
    changes the counter, never takes [counter_lock] and makes no claim. *)
Theorem static_leaves_counter (work : matrix) (N : Z) (sched : list actor)
    (st : state) :
  valid_threads N →
  run work sched (init false N) = Next st →
  counter st = rows ∧ counter_lock st = None ∧ claims st = [].
Proof. apply static_shared. Qed.

Lemma static_leaves_counter_witness :
  counter static_end = rows ∧ counter_lock static_end = None ∧
  claims static_end = [].
Proof.
  apply (static_leaves_counter ramp 2 static_schedule).
  - exact valid_threads_2.
  - exact static_run.
Defined.

(** X4 (the per-worker results): in every execution, under either
    strategy, whenever worker [tid] is between two rows, [tcount[tid]] is the
    number of rows it has summed so far and [sum[tid]] is the total of their
    elements modulo 2^64; with a matrix of [rand()] values the accumulator
    has not wrapped: [sum[tid]] is that total. *)
Theorem worker_accounting (work : matrix) (dFlag : bool) (N : Z)
    (sched : list actor) (st : state) (tid : nat) (l : list Z) :
  valid_threads N →
  run work sched (init dFlag N) = Next st →
  handled st !! tid = Some l →
  tcount st !! tid = Some (lenZ l) ∧
  sum st !! tid = Some (to_uint64 (rows_total work l)) ∧
  0 ≤ lenZ l ≤ rows ∧
  (rand_filled work → sum st !! tid = Some (rows_total work l)).
Proof.
  intros HN Hrun Hl.
  pose proof (inv_reachable work N HN _ _ _ Hrun) as Hinv.
  pose proof Hinv as (Hacct & _).
  assert (tcount st !! tid = Some (lenZ l)) as Htc.
  { by rewrite (acct_tcount _ _ _ Hacct), list_lookup_fmap, Hl. }
  assert (sum st !! tid = Some (to_uint64 (rows_total work l))) as Hs.
  { by rewrite (acct_sum _ _ _ Hacct), list_lookup_fmap, Hl. }
  pose proof (tcount_bound work N HN _ _ _ _ Hinv Htc) as Hb.
  split_and!; try done; try lia.
  intros Hw. rewrite Hs. f_equal. apply to_uint64_small.
  apply rows_total_range; [done|by eapply handled_rows_range|].
  unfold lenZ in Hb. lia.
Qed.

Lemma worker_accounting_witness :
  tcount claim_end !! 1%nat = Some (lenZ [999]) ∧
  sum claim_end !! 1%nat = Some (to_uint64 (rows_total ramp [999])) ∧
  0 ≤ lenZ [999] ≤ rows ∧
  (rand_filled ramp → sum claim_end !! 1%nat = Some (rows_total ramp [999])).
Proof.
  apply (worker_accounting ramp true 2
           (claim 1 ++ critical_section 0 999 [Worker 1] [] [] [])).
  - exact valid_threads_2.
  - exact claim_whole_run.
  - reflexivity.
Defined.

(** X5 (the static distribution is balanced): when the static workers have
    returned, worker [tid] has summed [ceil((rows - tid) / N)] rows; a worker
    has summed as many rows as a worker with a larger id, or one more. *)
Theorem static_balanced (work : matrix) (N : Z) (sched : list actor)
    (st : state) (t1 t2 : nat) :
  valid_threads N →
  run work sched (init false N) = Next st →
  all_done st = true →
  (t1 ≤ t2)%nat → Z.of_nat t2 < N →
  ∃ c1 c2, tcount st !! t1 = Some c1 ∧ tcount st !! t2 = Some c2 ∧
           c1 = (rows - Z.of_nat t1 + N - 1) / N ∧
           c2 = (rows - Z.of_nat t2 + N - 1) / N ∧
           0 ≤ c1 - c2 ≤ 1.
Proof.
  intros HN Hrun Hdone Ht Ht2.
  pose proof (inv_reachable work N HN _ _ _ Hrun) as Hinv.
  pose proof Hinv as (Hacct & _).
  assert (∀ t, Z.of_nat t < N → threads st !! t = Some Finished) as Hfin.
  { intros t Hlt.
    destruct (lookup_lt_is_Some_2 (threads st) t) as [p Hp].
    { rewrite (acct_threads _ _ _ Hacct). lia. }
    by rewrite <-(all_done_lookup _ _ _ Hdone Hp). }
  pose proof (static_count work N st t1 HN Hinv (Hfin t1 ltac:(lia))) as H1.
  pose proof (static_count work N st t2 HN Hinv (Hfin t2 ltac:(lia))) as H2.
  eexists _, _. split_and!; try done.
  - apply Z.le_0_sub, Z.div_le_mono; destruct HN; lia.
  - destruct HN as [HN1 _].
    assert ((rows - Z.of_nat t1 + N - 1) / N
            ≤ (rows - Z.of_nat t2 + N - 1 + N) / N); [|].
    { apply Z.div_le_mono; lia. }
    replace (rows - Z.of_nat t2 + N - 1 + N)
      with (rows - Z.of_nat t2 + N - 1 + 1 * N) in * by lia.
    rewrite Z.div_add in * by lia. lia.
Qed.

Lemma static_balanced_witness :
  ∃ c1 c2, tcount static_end !! 0%nat = Some c1 ∧
           tcount static_end !! 1%nat = Some c2 ∧
           c1 = (rows - Z.of_nat 0 + 2 - 1) / 2 ∧
           c2 = (rows - Z.of_nat 1 + 2 - 1) / 2 ∧
           0 ≤ c1 - c2 ≤ 1.
Proof.
  apply (static_balanced ramp 2 static_schedule static_end 0 1).
  - exact valid_threads_2.
  - exact static_run.
  - reflexivity.
  - lia.
  - lia.
Defined.

(** X6 (more threads than rows): a static worker whose id is not a row of
    the matrix sums nothing: its entries of [tcount] and [sum] stay 0. *)
Theorem static_surplus (work : matrix) (N : Z) (sched : list actor)
    (st : state) (tid : nat) :
  valid_threads N →
  run work sched (init false N) = Next st →
  rows ≤ Z.of_nat tid < N →
  handled st !! tid = Some [] ∧ tcount st !! tid = Some 0 ∧
  sum st !! tid = Some 0.
Proof.
  intros HN Hrun Htid.
  destruct (inv_reachable work N HN _ _ _ Hrun) as (Hacct & _ & Hstat).
  destruct (lookup_lt_is_Some_2 (threads st) tid) as [p Hp].
  { rewrite (acct_threads _ _ _ Hacct). lia. }
  destruct (acct_lookups _ _ _ _ _ Hacct Hp) as (l & Hl & Htc & Hs).
  destruct (Hstat _ _ _ Hp Hl) as (k & Hk & -> & Hlast & _).
  assert (k = 0) as -> by (destruct HN; destruct Hlast; nia).
  done.
Qed.

Lemma static_surplus_witness :
  handled surplus_end !! 1000%nat = Some [] ∧
  tcount surplus_end !! 1000%nat = Some 0 ∧
  sum surplus_end !! 1000%nat = Some 0.
Proof.
  apply (static_surplus ramp 1001 [Worker 1000]).
  - exact valid_threads_1001.
  - exact surplus_run.
  - unfold rows. lia.
Defined.

(** X7 (the order of the rows of a dynamic worker): the rows that a dynamic
    worker has summed, in the order in which it summed them, are a
    subsequence of [rows - 1, rows - 2, ..., 0]: their indices decrease
    strictly. *)
Theorem dynamic_worker_order (work : matrix) (N : Z) (sched : list actor)
    (st : state) (tid : nat) (l : list Z) :
  valid_threads N →
  run work sched (init true N) = Next st →
  handled st !! tid = Some l →
  l `sublist_of` down_to 0 ∧
  ∀ i j a b, (i < j)%nat → l !! i = Some a → l !! j = Some b → b < a.
Proof.
  intros HN Hrun Hl.
  pose proof (inv_reachable work N HN _ _ _ Hrun) as (Hacct & _ & Hdyn).
  pose proof (claim_order_run work N _ _ HN Hrun) as Hord.
  destruct (lookup_lt_is_Some_2 (threads st) tid) as [p Hp].
  { rewrite (acct_threads _ _ _ Hacct), <-(acct_handled _ _ _ Hacct).
    by eapply lookup_lt_Some. }
  assert (l `sublist_of` down_to 0) as Hsub.
  { etrans; [apply (sublist_inserts_r (option_list (pending p)))|]; [done|].
    etrans; [by eapply Hord|].
    rewrite (dyn_claims _ Hdyn). by apply down_to_prefix, claimed_bound. }
  split; [done|]. intros i j a b. by apply sublist_down_to_decreasing.
Qed.

Lemma dynamic_worker_order_witness :
  [999; 998] `sublist_of` down_to 0 ∧
  ∀ i j a b, (i < j)%nat →
             [999; 998] !! i = Some a → [999; 998] !! j = Some b → b < a.
Proof.
  apply (dynamic_worker_order ramp 2
           (claim 1 ++ [Worker 1] ++ claim 1 ++ [Worker 1]) two_rows 1).
  - exact valid_threads_2.
  - exact two_rows_run.
  - reflexivity.
Defined.

(** X8 (one thread): with a single worker the static strategy sums the rows
    in the order 0, 1, 2, ... and the dynamic strategy in the order
    [rows - 1], [rows - 2], ..., without gaps. *)
Theorem single_thread_order (work : matrix) (dFlag : bool)
    (sched : list actor) (st : state) (l : list Z) :
  run work sched (init dFlag 1) = Next st →
  handled st !! 0%nat = Some l →
  l = if dFlag then down_to (rows - lenZ l) else seqZ 0 (lenZ l).
Proof.
  intros Hrun Hl.
  assert (valid_threads 1) as HN.
  { unfold valid_threads, rows, INT_MAX. lia. }
  pose proof (inv_reachable work 1 HN _ _ _ Hrun) as Hinv.
  pose proof Hinv as (Hacct & _ & Hstrat).
  destruct (lookup_lt_is_Some_2 (threads st) 0) as [p Hp].
  { rewrite (acct_threads _ _ _ Hacct). lia. }
  pose proof (acct_threads _ _ _ Hacct) as HlenT.
  pose proof (acct_handled _ _ _ Hacct) as HlenH.
  destruct dFlag.
  - pose proof (claim_order_run work 1 _ _ HN Hrun _ _ _ Hp Hl) as Hsub.
    pose proof (dyn_cover _ Hstrat) as Hcov.
    rewrite (singleton_lookup _ _ HlenT Hp) in Hcov.
    rewrite (singleton_lookup _ _ HlenH Hl) in Hcov.
    simpl in Hcov. rewrite app_nil_r in Hcov.
    assert (l ++ option_list (pending p) = claims st) as Heq.
    { apply sublist_same_length; [done|].
      apply Permutation_length in Hcov. rewrite <-Hcov.
      rewrite !length_app. destruct (pending p); simpl; lia. }
    rewrite (dyn_claims _ Hstrat) in Heq.
    apply (down_to_app_inv l (option_list (pending p))
                           (counter st + uncopied st));
      [by apply claimed_bound|destruct (pending p); simpl; lia|exact Heq].
  - destruct (Hstrat _ _ _ Hp Hl) as (k & Hk & -> & _).
    unfold lenZ, stride. rewrite length_fmap, length_seqZ, Z2Nat.id by done.
    rewrite <-(list_fmap_id (seqZ 0 k)) at 2.
    apply list_fmap_ext. intros i j _. simpl. lia.
Qed.

Lemma single_thread_order_witness : [999] = down_to (rows - lenZ [999]).
Proof.
  apply (single_thread_order ramp true (claim 0 ++ [Worker 0] ++ claim 0)
                             solo [999]).
  - exact solo_run.
  - reflexivity.
Defined.

(** X9 (the running totals of [main]): while [main] is in its joining loop
    at index [i], the threads [0 .. i-1] have returned, [total_work] is the
    sum of their entries of [tcount], at most [rows], and [gross_sum] is the
    sum of their entries of [sum] modulo 2^64. *)
Theorem main_running_totals (work : matrix) (dFlag : bool) (N : Z)
    (sched : list actor) (st : state) (limiter i : Z) :
  valid_threads N →
  run work sched (init dFlag N) = Next st →
  main_at st = MJoin limiter i →
  limiter = N ∧ 0 ≤ i ≤ N ∧
  (∀ j, (j < Z.to_nat i)%nat → threads st !! j = Some Finished) ∧
  total_work st = Zsum (take (Z.to_nat i) (tcount st)) ∧
  gross_sum st = to_uint64 (Zsum (take (Z.to_nat i) (sum st))) ∧
  0 ≤ total_work st ≤ rows.
Proof.
  intros HN Hrun Hm.
  pose proof (inv_reachable work N HN _ _ _ Hrun) as Hinv.
  pose proof Hinv as (_ & Hmain & _). unfold main_inv in Hmain.
  rewrite Hm in Hmain. destruct Hmain as (-> & Hi & Hfin & Htw & Hgs).
  destruct (tcount_total work N HN _ _ Hinv) as [Hpos Hsum].
  pose proof (Zsum_take_le _ (Z.to_nat i) Hpos) as Hle.
  rewrite <-Htw in Hle. split_and!; try done; lia.
Qed.

Lemma main_running_totals_witness :
  1000 = 1000 ∧ 0 ≤ 1 ≤ 1000 ∧
  (∀ j, (j < Z.to_nat 1)%nat → threads one_joined !! j = Some Finished) ∧
  total_work one_joined = Zsum (take (Z.to_nat 1) (tcount one_joined)) ∧
  gross_sum one_joined
  = to_uint64 (Zsum (take (Z.to_nat 1) (sum one_joined))) ∧
  0 ≤ total_work one_joined ≤ rows.
Proof.
  apply (main_running_totals ramp false 1000 [Worker 0; Worker 0; Main]).
  - exact valid_threads_1000.
  - exact one_joined_run.
  - reflexivity.
Defined.

(** X10 (the option [-d]): when all the options are recognized, the
    threads run the dynamic strategy exactly when [-d] is among the options,
    wherever it stands. *)
Theorem dflag_selects (maxThreads : Z) (opts : list getopt_result) :
  Opt_other ∉ opts →
  ∃ limiter,
    main maxThreads opts = Start (init (bool_decide (Opt_d ∈ opts)) limiter).
Proof.
  intros Hno. unfold main.
  destruct (options_no_other maxThreads opts false 2 Hno) as (d & l & Hopts).
  rewrite Hopts. apply options_dflag in Hopts. simpl in Hopts. subst d.
  by exists l.
Qed.

Lemma dflag_selects_witness :
  ∃ limiter,
    main 8 [Opt_t 3; Opt_d]
    = Start (init (bool_decide (Opt_d ∈ [Opt_t 3; Opt_d])) limiter).
Proof.
  apply (dflag_selects 8 [Opt_t 3; Opt_d]).
  intros [H|[H|H]%elem_of_cons]%elem_of_cons;
    [discriminate..|by apply elem_of_nil in H].
Defined.

(** X11 (no hardware concurrency): when [hardware_concurrency()] returns 0
    and [-t] is given with a value of at least 2, the thread count becomes 0:
    no thread is started, [main] returns 0 at its first step, and the totals
    it reports are 0, not [rows] and the sum of the matrix. *)
Theorem zero_hardware_concurrency (work : matrix) (value : Z)
    (pre post : list getopt_result) :
  2 ≤ value ≤ INT_MAX →
  Opt_other ∉ pre → Forall (λ o, o = Opt_d) post →
  ∃ dFlag,
    main 0 (pre ++ Opt_t value :: post) = Start (init dFlag 0) ∧
    threads (init dFlag 0) = [] ∧
    main_exit work 0 (pre ++ Opt_t value :: post) [Main] = Some 0 ∧
    ∀ sched st, run work sched (init dFlag 0) = Next st →
                total_work st = 0 ∧ gross_sum st = 0.
Proof.
  intros Hv Hpre Hpost.
  assert (set_limiter 0 value = 0) as Hset.
  { unfold set_limiter.
    rewrite to_uint32_small by (unfold UINT32_MAX, INT_MAX in *; lia).
    rewrite decide_False by lia. by rewrite decide_True by lia. }
  destruct (options_last_t 0 pre value post false 2 Hpre Hpost) as [d Hopts].
  rewrite Hset in Hopts. exists d. unfold main_exit, main. rewrite Hopts.
  split_and!.
  - done.
  - by destruct d.
  - by destruct d.
  - intros sched st Hrun.
    destruct (no_threads_run work sched (init d 0) st) as (_ & ? & ? & _);
      try done; [by destruct d|by left].
Qed.

Lemma zero_hardware_concurrency_witness :
  ∃ dFlag,
    main 0 ([] ++ Opt_t 5 :: [Opt_d]) = Start (init dFlag 0) ∧
    threads (init dFlag 0) = [] ∧
    main_exit ramp 0 ([] ++ Opt_t 5 :: [Opt_d]) [Main] = Some 0 ∧
    ∀ sched st, run ramp sched (init dFlag 0) = Next st →
                total_work st = 0 ∧ gross_sum st = 0.
Proof.
  apply (zero_hardware_concurrency ramp 5 [] [Opt_d]).
  - unfold INT_MAX. lia.
  - apply not_elem_of_nil.
  - repeat constructor.
Defined.

(** X12 (the population of the matrix): the two loops call [rand()]
    [rows * cols] times and store the result of call number
    [row * cols + i] at [work[row][i]]; if [rand()] returns values in
    [0, INT_MAX] the matrix holds such values, and its total is the sum of
    the values that the calls returned. *)
Theorem fill_work_entries (rand : nat → Z) :
  (∀ k, 0 ≤ rand k ≤ INT_MAX) →
  snd (fill_work rand) = Z.to_nat (rows * cols) ∧
  (∀ row i, 0 ≤ row < rows → 0 ≤ i < cols →
            fst (fill_work rand) row i = rand (Z.to_nat (row * cols + i))) ∧
  rand_filled (fst (fill_work rand)) ∧
  matrix_total (fst (fill_work rand))
  = Zsum (rand <$> seq 0 (Z.to_nat (rows * cols))).
Proof.
  intros Hr. destruct (fill_work_spec rand) as [Hk Hw].
  split; [exact Hk|]. split; [|split].
  - intros row i Hrow Hi. rewrite Hw. rewrite decide_True; [reflexivity|].
    split; assumption.
  - apply fill_work_rand_filled. exact Hr.
  - apply fill_work_total.
Qed.

Lemma fill_work_entries_witness :
  snd (fill_work counting) = Z.to_nat (rows * cols) ∧
  (∀ row i, 0 ≤ row < rows → 0 ≤ i < cols →
            fst (fill_work counting) row i
            = counting (Z.to_nat (row * cols + i))) ∧
  rand_filled (fst (fill_work counting)) ∧
  matrix_total (fst (fill_work counting))
  = Zsum (counting <$> seq 0 (Z.to_nat (rows * cols))).
Proof. apply (fill_work_entries counting). exact counting_range. Defined.

(** X13 (the whole program): with a hardware concurrency of at least 2,
    for every command line without an unrecognized option, every matrix that
    the population loops produce from [rand()] values in [0, INT_MAX], and
    every interleaving of the threads: if [main] returns, it returns 0 with
    [total_work = rows] and [gross_sum] the sum of the [rows * cols] values
    that [rand()] returned; and some interleaving makes it return. *)
Theorem program_summary (work : matrix) (rand : nat → Z) (maxThreads : Z)
    (opts : list getopt_result) (st0 : state) :
  2 ≤ maxThreads → valid_threads maxThreads →
  (∀ k, 0 ≤ rand k ≤ INT_MAX) →
  (∀ row i, 0 ≤ row < rows → 0 ≤ i < cols →
            work row i = fst (fill_work rand) row i) →
  main maxThreads opts = Start st0 →
  (∀ sched st code,
     run work sched st0 = Next st → exit_code st = Some code →
     code = 0 ∧ total_work st = rows ∧
     gross_sum st = Zsum (rand <$> seq 0 (Z.to_nat (rows * cols)))) ∧
  ∃ sched st, run work sched st0 = Next st ∧ exit_code st = Some 0.
Proof.
  intros Hhw [_ Hmax] Hr Hwork Hmain. unfold main in Hmain.
  destruct (options maxThreads opts false 2) as [[d l]|] eqn:Hopts; [|done].
  simplify_eq.
  assert (valid_threads l) as Hl.
  { assert (2 ≤ 2 ≤ maxThreads) as H2 by lia.
    pose proof (options_range _ _ _ _ _ _ Hhw H2 Hopts).
    unfold valid_threads in *. lia. }
  assert (rand_filled work) as Hw.
  { eapply rand_filled_ext; [done|]. by apply fill_work_rand_filled. }
  split.
  - intros sched st code Hrun Hex.
    pose proof (inv_reachable work l Hl _ _ _ Hrun) as Hinv.
    destruct (exit_done work l _ _ _ Hinv Hex) as [-> _].
    destruct (final_totals work l Hl _ _ _ Hinv Hex) as [-> ->].
    split; [reflexivity|]. split; [reflexivity|].
    rewrite to_uint64_small by (apply matrix_total_range; exact Hw).
    rewrite (matrix_total_ext _ _ Hwork). apply fill_work_total.
  - destruct (completes work l Hl d (init d l) (inv_init work l Hl d))
      as (sched & st & Hrun & Hex & _).
    by exists sched, st.
Qed.

Lemma program_summary_witness :
  (∀ sched st code,
     run ramp sched (init false 2) = Next st → exit_code st = Some code →
     code = 0 ∧ total_work st = rows ∧
     gross_sum st = Zsum (counting <$> seq 0 (Z.to_nat (rows * cols)))) ∧
  ∃ sched st, run ramp sched (init false 2) = Next st ∧
              exit_code st = Some 0.
Proof.
  apply (program_summary ramp counting 8 [Opt_t 1] (init false 2)).
  - lia.
  - exact valid_threads_8.
  - exact counting_range.
  - exact ramp_counting.
  - reflexivity.
Defined.
